(** * Popup: a shallow embedding of popup.copy.js

    The widget is modelled over an explicit store: DOM elements and Popup
    objects live in finite maps keyed by reference, the prototype's
    [_eventsList] object is one map shared by every instance, and each method
    is a function in a state-and-exception monad (a JavaScript exception keeps
    the mutations made before it).  What the browser computes (layout
    measurements, selector matching) is a parameter of the development. *)

From Stdlib Require Import ZArith String Ascii List Bool Lia.
From stdpp Require Import base option gmap strings list.

Local Open Scope string_scope.
Local Open Scope Z_scope.

(** ** JavaScript values held in properties *)

(** A property that may be [undefined], [null] or hold a value. *)
Inductive slot (A : Type) : Type :=
| Undefined
| Null
| Val (a : A).
Arguments Undefined {A}.
Arguments Null {A}.
Arguments Val {A} a.

#[global] Instance slot_eq_dec {A} `{EqDecision A} : EqDecision (slot A).
Proof. solve_decision. Defined.

(** JavaScript truthiness of a boolean-valued property. *)
Definition truthy (s : slot bool) : bool :=
  match s with Val b => b | _ => false end.

(** [x ? ... : ...] on a string: the empty string is falsy. *)
Definition truthy_str (s : slot string) : bool :=
  match s with Val "" => false | Val _ => true | _ => false end.

(** [x === undefined ? d : x] *)
Definition undefined_or {A} (d : A) (o : option A) : A :=
  match o with Some a => a | None => d end.

(** References: DOM elements, Popup objects and function objects are known by
    their identity. *)
Definition ref := nat.
Bind Scope nat_scope with ref.

(** The value of an [onscroll] slot: [null], a function of the page, or the
    closure [function() { self.targetEl.scrollTop = top; }] made by [open],
    known by the variables it captures. *)
Inductive Handler : Type :=
| HNull
| HUser (f : ref)
| HLock (self : ref) (top : Z).

(** Assigning a possibly-undefined value to an event handler attribute:
    anything that is not a function is stored as [null]. *)
Definition as_handler (s : slot Handler) : Handler :=
  match s with Val h => h | _ => HNull end.

(** The function expressions the widget passes to [addEvent] / [removeEvent],
    known by what they capture. *)
Inductive Code : Type :=
| OnContainerFn (self : ref)            (* function(e){ self._onContainer.call(self, e) } *)
| OnMaskFn (self : ref)                 (* function(e){ self._onMask.call(self, e) } *)
| PromptOkFn (self : ref) (inputEl : option ref).  (* the handler prompt binds on its ok element *)

(** A registered listener: event type, the identity of the function object
    (every evaluation of a function expression makes a new one), its code and
    the capture flag. *)
Record Listener : Type := {
  l_type : string;
  l_fn : ref;
  l_code : Code;
  l_capture : bool
}.

(** Values assigned to [style] properties. [HalfPx n] is [n/2 + 'px']. *)
Inductive Css : Type :=
| Kw (s : string)
| Num (n : Z)
| Px (n : Z)
| HalfPx (n : Z).

#[global] Instance Handler_eq_dec : EqDecision Handler.
Proof. solve_decision. Defined.
#[global] Instance Css_eq_dec : EqDecision Css.
Proof. solve_decision. Defined.

(** ** DOM elements *)

Record Element : Type := {
  className : string;
  style : gmap string Css;
  parentNode : option ref;
  children : list ref;
  innerHTML : string;
  onscroll : Handler;
  scrollTop : Z;
  clientWidth : Z;
  clientHeight : Z;
  listeners : list Listener;
  value : string
}.

Definition new_element : Element :=
  {| className := ""; style := ∅; parentNode := None; children := [];
     innerHTML := ""; onscroll := HNull; scrollTop := 0; clientWidth := 0;
     clientHeight := 0; listeners := []; value := "" |}.

Definition with_className (v : string) (e : Element) : Element :=
  {| className := v; style := style e; parentNode := parentNode e;
     children := children e; innerHTML := innerHTML e; onscroll := onscroll e;
     scrollTop := scrollTop e; clientWidth := clientWidth e;
     clientHeight := clientHeight e; listeners := listeners e; value := value e |}.
Definition with_style (v : gmap string Css) (e : Element) : Element :=
  {| className := className e; style := v; parentNode := parentNode e;
     children := children e; innerHTML := innerHTML e; onscroll := onscroll e;
     scrollTop := scrollTop e; clientWidth := clientWidth e;
     clientHeight := clientHeight e; listeners := listeners e; value := value e |}.
Definition with_parentNode (v : option ref) (e : Element) : Element :=
  {| className := className e; style := style e; parentNode := v;
     children := children e; innerHTML := innerHTML e; onscroll := onscroll e;
     scrollTop := scrollTop e; clientWidth := clientWidth e;
     clientHeight := clientHeight e; listeners := listeners e; value := value e |}.
Definition with_children (v : list ref) (e : Element) : Element :=
  {| className := className e; style := style e; parentNode := parentNode e;
     children := v; innerHTML := innerHTML e; onscroll := onscroll e;
     scrollTop := scrollTop e; clientWidth := clientWidth e;
     clientHeight := clientHeight e; listeners := listeners e; value := value e |}.
Definition with_innerHTML (v : string) (e : Element) : Element :=
  {| className := className e; style := style e; parentNode := parentNode e;
     children := children e; innerHTML := v; onscroll := onscroll e;
     scrollTop := scrollTop e; clientWidth := clientWidth e;
     clientHeight := clientHeight e; listeners := listeners e; value := value e |}.
Definition with_onscroll (v : Handler) (e : Element) : Element :=
  {| className := className e; style := style e; parentNode := parentNode e;
     children := children e; innerHTML := innerHTML e; onscroll := v;
     scrollTop := scrollTop e; clientWidth := clientWidth e;
     clientHeight := clientHeight e; listeners := listeners e; value := value e |}.
Definition with_listeners (v : list Listener) (e : Element) : Element :=
  {| className := className e; style := style e; parentNode := parentNode e;
     children := children e; innerHTML := innerHTML e; onscroll := onscroll e;
     scrollTop := scrollTop e; clientWidth := clientWidth e;
     clientHeight := clientHeight e; listeners := v; value := value e |}.

(** [el.style.k = v] *)
Definition set_style (k : string) (v : Css) (e : Element) : Element :=
  with_style (<[k := v]> (style e)) e.

(** ** Popup objects *)

(** The own properties of a Popup object: those the constructor sets, then
    those the methods add ([prefixClass], [delayCalculate], [isClosed],
    [innerEl], [closeEl]), [Undefined] until first assigned. *)
Record Instance : Type := {
  targetEl : slot ref;
  disposable : slot bool;
  mask : slot bool;
  closeOnMask : bool;
  popupEl : slot ref;
  containerEl : slot ref;
  maskEl : slot ref;
  autoSize : bool;
  _scrollEvent : slot Handler;
  prefixClass : slot string;
  delayCalculate : slot Z;
  isClosed : slot bool;
  innerEl : slot ref;
  closeEl : slot ref
}.

Definition with_targetEl (v : slot ref) (i : Instance) : Instance :=
  {| targetEl := v; disposable := disposable i; mask := mask i;
     closeOnMask := closeOnMask i; popupEl := popupEl i;
     containerEl := containerEl i; maskEl := maskEl i; autoSize := autoSize i;
     _scrollEvent := _scrollEvent i; prefixClass := prefixClass i;
     delayCalculate := delayCalculate i; isClosed := isClosed i;
     innerEl := innerEl i; closeEl := closeEl i |}.
Definition with_disposable (v : slot bool) (i : Instance) : Instance :=
  {| targetEl := targetEl i; disposable := v; mask := mask i;
     closeOnMask := closeOnMask i; popupEl := popupEl i;
     containerEl := containerEl i; maskEl := maskEl i; autoSize := autoSize i;
     _scrollEvent := _scrollEvent i; prefixClass := prefixClass i;
     delayCalculate := delayCalculate i; isClosed := isClosed i;
     innerEl := innerEl i; closeEl := closeEl i |}.
Definition with_mask (v : slot bool) (i : Instance) : Instance :=
  {| targetEl := targetEl i; disposable := disposable i; mask := v;
     closeOnMask := closeOnMask i; popupEl := popupEl i;
     containerEl := containerEl i; maskEl := maskEl i; autoSize := autoSize i;
     _scrollEvent := _scrollEvent i; prefixClass := prefixClass i;
     delayCalculate := delayCalculate i; isClosed := isClosed i;
     innerEl := innerEl i; closeEl := closeEl i |}.
Definition with_closeOnMask (v : bool) (i : Instance) : Instance :=
  {| targetEl := targetEl i; disposable := disposable i; mask := mask i;
     closeOnMask := v; popupEl := popupEl i;
     containerEl := containerEl i; maskEl := maskEl i; autoSize := autoSize i;
     _scrollEvent := _scrollEvent i; prefixClass := prefixClass i;
     delayCalculate := delayCalculate i; isClosed := isClosed i;
     innerEl := innerEl i; closeEl := closeEl i |}.
Definition with_popupEl (v : slot ref) (i : Instance) : Instance :=
  {| targetEl := targetEl i; disposable := disposable i; mask := mask i;
     closeOnMask := closeOnMask i; popupEl := v;
     containerEl := containerEl i; maskEl := maskEl i; autoSize := autoSize i;
     _scrollEvent := _scrollEvent i; prefixClass := prefixClass i;
     delayCalculate := delayCalculate i; isClosed := isClosed i;
     innerEl := innerEl i; closeEl := closeEl i |}.
Definition with_containerEl (v : slot ref) (i : Instance) : Instance :=
  {| targetEl := targetEl i; disposable := disposable i; mask := mask i;
     closeOnMask := closeOnMask i; popupEl := popupEl i;
     containerEl := v; maskEl := maskEl i; autoSize := autoSize i;
     _scrollEvent := _scrollEvent i; prefixClass := prefixClass i;
     delayCalculate := delayCalculate i; isClosed := isClosed i;
     innerEl := innerEl i; closeEl := closeEl i |}.
Definition with_maskEl (v : slot ref) (i : Instance) : Instance :=
  {| targetEl := targetEl i; disposable := disposable i; mask := mask i;
     closeOnMask := closeOnMask i; popupEl := popupEl i;
     containerEl := containerEl i; maskEl := v; autoSize := autoSize i;
     _scrollEvent := _scrollEvent i; prefixClass := prefixClass i;
     delayCalculate := delayCalculate i; isClosed := isClosed i;
     innerEl := innerEl i; closeEl := closeEl i |}.
Definition with_autoSize (v : bool) (i : Instance) : Instance :=
  {| targetEl := targetEl i; disposable := disposable i; mask := mask i;
     closeOnMask := closeOnMask i; popupEl := popupEl i;
     containerEl := containerEl i; maskEl := maskEl i; autoSize := v;
     _scrollEvent := _scrollEvent i; prefixClass := prefixClass i;
     delayCalculate := delayCalculate i; isClosed := isClosed i;
     innerEl := innerEl i; closeEl := closeEl i |}.
Definition with_scrollEvent (v : slot Handler) (i : Instance) : Instance :=
  {| targetEl := targetEl i; disposable := disposable i; mask := mask i;
     closeOnMask := closeOnMask i; popupEl := popupEl i;
     containerEl := containerEl i; maskEl := maskEl i; autoSize := autoSize i;
     _scrollEvent := v; prefixClass := prefixClass i;
     delayCalculate := delayCalculate i; isClosed := isClosed i;
     innerEl := innerEl i; closeEl := closeEl i |}.
Definition with_prefixClass (v : slot string) (i : Instance) : Instance :=
  {| targetEl := targetEl i; disposable := disposable i; mask := mask i;
     closeOnMask := closeOnMask i; popupEl := popupEl i;
     containerEl := containerEl i; maskEl := maskEl i; autoSize := autoSize i;
     _scrollEvent := _scrollEvent i; prefixClass := v;
     delayCalculate := delayCalculate i; isClosed := isClosed i;
     innerEl := innerEl i; closeEl := closeEl i |}.
Definition with_delayCalculate (v : slot Z) (i : Instance) : Instance :=
  {| targetEl := targetEl i; disposable := disposable i; mask := mask i;
     closeOnMask := closeOnMask i; popupEl := popupEl i;
     containerEl := containerEl i; maskEl := maskEl i; autoSize := autoSize i;
     _scrollEvent := _scrollEvent i; prefixClass := prefixClass i;
     delayCalculate := v; isClosed := isClosed i;
     innerEl := innerEl i; closeEl := closeEl i |}.
Definition with_isClosed (v : slot bool) (i : Instance) : Instance :=
  {| targetEl := targetEl i; disposable := disposable i; mask := mask i;
     closeOnMask := closeOnMask i; popupEl := popupEl i;
     containerEl := containerEl i; maskEl := maskEl i; autoSize := autoSize i;
     _scrollEvent := _scrollEvent i; prefixClass := prefixClass i;
     delayCalculate := delayCalculate i; isClosed := v;
     innerEl := innerEl i; closeEl := closeEl i |}.
Definition with_innerEl (v : slot ref) (i : Instance) : Instance :=
  {| targetEl := targetEl i; disposable := disposable i; mask := mask i;
     closeOnMask := closeOnMask i; popupEl := popupEl i;
     containerEl := containerEl i; maskEl := maskEl i; autoSize := autoSize i;
     _scrollEvent := _scrollEvent i; prefixClass := prefixClass i;
     delayCalculate := delayCalculate i; isClosed := isClosed i;
     innerEl := v; closeEl := closeEl i |}.
Definition with_closeEl (v : slot ref) (i : Instance) : Instance :=
  {| targetEl := targetEl i; disposable := disposable i; mask := mask i;
     closeOnMask := closeOnMask i; popupEl := popupEl i;
     containerEl := containerEl i; maskEl := maskEl i; autoSize := autoSize i;
     _scrollEvent := _scrollEvent i; prefixClass := prefixClass i;
     delayCalculate := delayCalculate i; isClosed := isClosed i;
     innerEl := innerEl i; closeEl := v |}.

(** ** The store *)

(** [eventsList] is the single object [Popup.prototype._eventsList]: no
    method ever assigns [this._eventsList], so every instance reaches this
    one object through the prototype chain.  A key holding [None] was
    assigned [undefined].  [timers] holds the pending
    [setTimeout(function(){ self._calculateSize() }, d)] calls as [(d, self)];
    [calls] logs the invocations of the page's callbacks (function, argument),
    oldest first; [global_txt] is the implicit global [txt] that [confirm] and
    [prompt] assign. *)
Record World : Type := {
  elems : gmap ref Element;
  objs : gmap ref Instance;
  eventsList : gmap string (option ref);
  next_ref : ref;
  timers : list (Z * ref);
  calls : list (ref * option string);
  activeElement : option ref;
  global_txt : option string
}.

Definition with_elems (v : gmap ref Element) (w : World) : World :=
  {| elems := v; objs := objs w; eventsList := eventsList w;
     next_ref := next_ref w; timers := timers w; calls := calls w;
     activeElement := activeElement w; global_txt := global_txt w |}.
Definition with_objs (v : gmap ref Instance) (w : World) : World :=
  {| elems := elems w; objs := v; eventsList := eventsList w;
     next_ref := next_ref w; timers := timers w; calls := calls w;
     activeElement := activeElement w; global_txt := global_txt w |}.
Definition with_eventsList (v : gmap string (option ref)) (w : World) : World :=
  {| elems := elems w; objs := objs w; eventsList := v;
     next_ref := next_ref w; timers := timers w; calls := calls w;
     activeElement := activeElement w; global_txt := global_txt w |}.
Definition with_next_ref (v : ref) (w : World) : World :=
  {| elems := elems w; objs := objs w; eventsList := eventsList w;
     next_ref := v; timers := timers w; calls := calls w;
     activeElement := activeElement w; global_txt := global_txt w |}.
Definition with_timers (v : list (Z * ref)) (w : World) : World :=
  {| elems := elems w; objs := objs w; eventsList := eventsList w;
     next_ref := next_ref w; timers := v; calls := calls w;
     activeElement := activeElement w; global_txt := global_txt w |}.
Definition with_calls (v : list (ref * option string)) (w : World) : World :=
  {| elems := elems w; objs := objs w; eventsList := eventsList w;
     next_ref := next_ref w; timers := timers w; calls := v;
     activeElement := activeElement w; global_txt := global_txt w |}.
Definition with_activeElement (v : option ref) (w : World) : World :=
  {| elems := elems w; objs := objs w; eventsList := eventsList w;
     next_ref := next_ref w; timers := timers w; calls := calls w;
     activeElement := v; global_txt := global_txt w |}.
Definition with_global_txt (v : option string) (w : World) : World :=
  {| elems := elems w; objs := objs w; eventsList := eventsList w;
     next_ref := next_ref w; timers := timers w; calls := calls w;
     activeElement := activeElement w; global_txt := v |}.

(** [document.documentElement] and [document.body]. *)
Definition documentElement : ref := 0%nat.
Definition body : ref := 1%nat.

(** ** Exceptions and the monad of methods *)

(** [BadRef] and [OutOfFuel] are the model's own: a reference outside the
    store, and the recursion bound of [close]/[destroy] being hit. *)
Inductive Error : Type :=
| TypeError
| SyntaxError
| NotFoundError
| BadRef
| OutOfFuel.

Inductive Outcome (A : Type) : Type :=
| Done (a : A) (w : World)
| Thrown (e : Error) (w : World).
Arguments Done {A} a w.
Arguments Thrown {A} e w.

Definition M (A : Type) : Type := World -> Outcome A.

#[global] Instance M_ret : MRet M := fun A a w => Done a w.
#[global] Instance M_bind : MBind M := fun A B f m w =>
  match m w with
  | Done a w' => f a w'
  | Thrown e w' => Thrown e w'
  end.

Definition throw {A} (e : Error) : M A := fun w => Thrown e w.
Definition get_world : M World := fun w => Done w w.
Definition update (f : World -> World) : M unit := fun w => Done tt (f w).

(** The store after a method ran, however it ended. *)
Definition final {A} (o : Outcome A) : World :=
  match o with Done _ w => w | Thrown _ w => w end.

(** Reading a property of [null] or [undefined] throws. *)
Definition deref {A} (s : slot A) : M A :=
  match s with Val a => mret a | _ => throw TypeError end.

Definition getEl (e : ref) : M Element := fun w =>
  match elems w !! e with
  | Some x => Done x w
  | None => Thrown BadRef w
  end.

Definition modEl (e : ref) (f : Element -> Element) : M unit := fun w =>
  match elems w !! e with
  | Some x => Done tt (with_elems (<[e := f x]> (elems w)) w)
  | None => Thrown BadRef w
  end.

Definition this (self : ref) : M Instance := fun w =>
  match objs w !! self with
  | Some i => Done i w
  | None => Thrown BadRef w
  end.

Definition modThis (self : ref) (f : Instance -> Instance) : M unit := fun w =>
  match objs w !! self with
  | Some i => Done tt (with_objs (<[self := f i]> (objs w)) w)
  | None => Thrown BadRef w
  end.

(** A new object identity (element, Popup object or function object). *)
Definition fresh : M ref := fun w =>
  Done (next_ref w) (with_next_ref (S (next_ref w)) w).

(** [document.createElement('div')] *)
Definition createElement : M ref :=
  e ← fresh;
  update (fun w => with_elems (<[e := new_element]> (elems w)) w);;
  mret e.

(** [parent.appendChild(child)]: the child leaves its former parent. *)
Definition appendChild (parent child : ref) : M unit :=
  c ← getEl child;
  match parentNode c with
  | Some old => modEl old (fun o => with_children (filter (fun x => x ≠ child) (children o)) o)
  | None => mret tt
  end;;
  modEl child (with_parentNode (Some parent));;
  modEl parent (fun p => with_children (children p ++ [child]) p).

(** [parent.removeChild(child)]: a [NotFoundError] unless [child] is a child
    of [parent]. *)
Definition removeChild (parent child : ref) : M unit :=
  c ← getEl child;
  if decide (parentNode c = Some parent) then
    modEl parent (fun p => with_children (filter (fun x => x ≠ child) (children p)) p);;
    modEl child (with_parentNode None)
  else throw NotFoundError.

(** ** What the browser computes *)

Inductive Query : Type :=
| Found (e : ref)
| NoMatch
| BadSelector.

(** [offsetSize w e] is [(e.offsetWidth, e.offsetHeight)] as laid out in the
    document [w]; [nativeQuery w root sel] is [root.querySelector(sel)], with
    [None] for [document]: the first match, none, or a selector that does not
    parse; [parseHTML s] is the element nodes the parser builds from the
    markup [s], in document order. *)
Record Host : Type := {
  offsetSize : World -> ref -> Z * Z;
  nativeQuery : World -> option ref -> string -> Query;
  parseHTML : string -> list Element
}.

(** ** The helper functions at the end of the file (UL, UD, UE) *)

(** The characters the regular expression class [\s] matches, among the
    one-byte ones: tab, line feed, vertical tab, form feed, carriage return,
    space. *)
Definition is_space (c : ascii) : bool :=
  let n := nat_of_ascii c in
  ((9 <=? n) && (n <=? 13))%nat || (n =? 32)%nat.

(** [strip_prefix p s] is what follows [p] in [s], when [s] starts with [p]. *)
Fixpoint strip_prefix (p s : string) : option string :=
  match p, s with
  | EmptyString, _ => Some s
  | String a p', String b s' => if Ascii.eqb a b then strip_prefix p' s' else None
  | String _ _, EmptyString => None
  end.

(** [cls] followed by the end of the string or by a space character. *)
Definition match_here (cls s : string) : bool :=
  match strip_prefix cls s with
  | Some EmptyString => true
  | Some (String d _) => is_space d
  | None => false
  end.

(** [new RegExp('(^|\\s)' + cls + '($|\\s)').test(s)], for a [cls] without
    regular-expression metacharacters (class names are letters, digits, [-]
    and [_], and the widget joins two of them with one space): [cls] occurs
    in [s] between a start-or-space and an end-or-space.  [b] tells whether
    the current position is the start or follows a space character. *)
Fixpoint scan (b : bool) (cls s : string) : bool :=
  (b && match_here cls s) ||
  match s with
  | EmptyString => false
  | String c s' => scan (is_space c) cls s'
  end.

(** [hasClass(el, cls)] *)
Definition hasClass (e : Element) (cls : string) : bool :=
  scan true cls (className e).

(** [addClass(el, cls)] *)
Definition addClass (el : ref) (cls : string) : M unit :=
  e ← getEl el;
  if hasClass e cls then mret tt
  else modEl el (with_className (className e +:+ " " +:+ cls)).





(** The maximal runs of non-space characters of [s], in order; [cur] is the
    run being read. *)
Fixpoint tokens (cur s : string) : list string :=
  match s with
  | EmptyString => match cur with EmptyString => [] | _ => [cur] end
  | String c s' =>
      if is_space c then
        match cur with
        | EmptyString => tokens "" s'
        | _ => cur :: tokens "" s'
        end
      else tokens (cur +:+ String c "") s'
  end.

(** [types.replace(/\s+/g, ' ').replace(/^\s+|\s+$/g, '').split(' ')]: the
    space-separated words, and [['']] when there is none. *)
Definition typeArr (types : string) : list string :=
  match tokens "" types with
  | [] => [""]
  | l => l
  end.

Definition same_listener (a b : Listener) : bool :=
  bool_decide (l_type a = l_type b) && bool_decide (l_fn a = l_fn b)
  && bool_decide (l_capture a = l_capture b).

(** [o.addEventListener(type, callback, onCatch)]: a listener already
    registered with the same type, function object and capture flag is not
    added again. *)
Definition addEventListener (l : Listener) (e : Element) : Element :=
  if existsb (same_listener l) (listeners e) then e
  else with_listeners (listeners e ++ [l]) e.

(** [o.removeEventListener(type, callback, onCatch)]: removes the listener
    registered with this very function object, if any. *)
Definition removeEventListener (l : Listener) (e : Element) : Element :=
  with_listeners (filter (fun x => same_listener l x = false) (listeners e)) e.

Inductive AddOrRemove : Type := add | remove.

Fixpoint for_each {A} (l : list A) (f : A -> M unit) : M unit :=
  match l with
  | [] => mret tt
  | x :: r => f x;; for_each r f
  end.

(** [eventHandler(els, types, callback, onCatch, handler)], called with one
    element (so [[].concat(els)] has that one entry), in a browser that has
    [document.addEventListener].  [callback] is the function object [fn]
    with code [code]. *)
Definition eventHandler (els : slot ref) (types : string) (fn : ref) (code : Code)
    (onCatch : bool) (handler : AddOrRemove) : M unit :=
  for_each (typeArr types) (fun ty =>
    o ← deref els;
    let l := {| l_type := ty; l_fn := fn; l_code := code; l_capture := onCatch |} in
    match handler with
    | add => modEl o (addEventListener l)
    | remove => modEl o (removeEventListener l)
    end).

Definition addEvent (els : slot ref) (types : string) (fn : ref) (code : Code) : M unit :=
  eventHandler els types fn code false add.

Definition removeEvent (els : slot ref) (types : string) (fn : ref) (code : Code) : M unit :=
  eventHandler els types fn code false remove.

(** ** Arguments of the public methods *)

(** The [options] object of [create]; an absent property is [None]. *)
Record Options : Type := {
  content : string;
  o_prefixClass : option string;
  o_closeOnMask : option bool;
  o_autoSize : option bool;
  o_delayCalculate : option Z;
  o_beforeClose : option ref;
  o_afterClose : option ref
}.

(** The [params] object of [alert], [confirm] and [prompt]. *)
Record Params : Type := {
  txt : string;
  okTxt : option string;
  cancelTxt : option string;
  placeholder : option string;
  p_mask : option bool;
  p_closeOnMask : option bool;
  p_autoSize : option bool;
  p_delayCalculate : option Z;
  okCallback : option ref;
  cancelCallback : option ref
}.

(** The two call forms of the presets: one object, or a text followed by
    [arguments[1]] (a function, or [None] for anything else) and
    [arguments[2]]. *)
Inductive Args : Type :=
| ByObject (p : Params)
| ByPosition (text : string) (arg1 arg2 : option ref).

(** [s || d] on an optional string. *)
Definition or_text (o : option string) (d : string) : string :=
  match o with
  | Some EmptyString | None => d
  | Some s => s
  end.

Definition opt_slot {A} (o : option A) : slot A :=
  match o with Some a => Val a | None => Undefined end.

(** What [close] returns: [true], or the instance. *)
Inductive CloseResult : Type :=
| ReturnedTrue
| ReturnedThis (self : ref).

(** The markup the presets build.  [quoted s] is [s] between two double
    quotes (character 34). *)
Definition quoted (s : string) : string :=
  String (ascii_of_nat 34) s +:+ String (ascii_of_nat 34) EmptyString.

Definition alert_content (t ok : string) : string :=
  "<p class=" +:+ quoted "alert-content" +:+ ">" +:+ t
  +:+ "</p><a class=" +:+ quoted "alert-ok popup-ok" +:+ ">" +:+ ok +:+ "</a>".

Definition confirm_content (t ok cancel : string) : string :=
  "<p class=" +:+ quoted "confirm-content" +:+ ">" +:+ t
  +:+ "</p><a class=" +:+ quoted "confirm-ok popup-ok" +:+ ">" +:+ ok
  +:+ "</a><a class=" +:+ quoted "confirm-cancel popup-cancel" +:+ ">" +:+ cancel
  +:+ "</a>".

Definition prompt_content (t ph ok cancel : string) : string :=
  "<p class=" +:+ quoted "prompot-content" +:+ ">" +:+ t
  +:+ "</p><input class=" +:+ quoted "prompot-input"
  +:+ " type=" +:+ quoted "text" +:+ " placeholder=" +:+ ph
  +:+ "><a class=" +:+ quoted "prompot-ok popup-ok" +:+ ">" +:+ ok
  +:+ "</a><a class=" +:+ quoted "prompot-cancel popup-cancel" +:+ ">" +:+ cancel
  +:+ "</a>".

(** ** The Popup class *)

Section Popup.

Variable host : Host.

(** [UD.querySelector(selector)], the one-argument form: the root is
    [document]. *)
Definition querySelector1 (selector : string) : M (option ref) :=
  w ← get_world;
  match nativeQuery host w None selector with
  | Found e => mret (Some e)
  | NoMatch => mret None
  | BadSelector => throw SyntaxError
  end.

(** [UD.querySelector(root, selector)] *)
Definition querySelector2 (root : slot ref) (selector : string) : M (option ref) :=
  r ← deref root;
  w ← get_world;
  match nativeQuery host w (Some r) selector with
  | Found e => mret (Some e)
  | NoMatch => mret None
  | BadSelector => throw SyntaxError
  end.

(** [new Popup(selector)]; [None] is a call without argument. *)
Definition Popup (selector : option string) : M ref :=
  target ← match selector with
           | Some s =>
               if truthy_str (Val s) then
                 q ← querySelector1 s;
                 (* UD.querySelector(selector) && document.body *)
                 mret (match q with Some _ => Val body | None => Null end)
               else mret (Val body)
           | None => mret (Val body)
           end;
  self ← fresh;
  update (fun w => with_objs (<[self :=
    {| targetEl := target; disposable := Val true; mask := Val true;
       closeOnMask := false; popupEl := Undefined; containerEl := Undefined;
       maskEl := Undefined; autoSize := true; _scrollEvent := Undefined;
       prefixClass := Undefined; delayCalculate := Undefined;
       isClosed := Undefined; innerEl := Undefined; closeEl := Undefined |}]>
    (objs w)) w);;
  mret self.

(** [el.innerHTML = markup]: the text is kept, and the nodes parsed from it
    become elements under [el] (the nesting among them is not recorded). *)
Definition set_innerHTML (el : ref) (markup : string) : M unit :=
  modEl el (with_innerHTML markup);;
  for_each (parseHTML host markup) (fun x =>
    r ← fresh;
    update (fun w => with_elems (<[r := with_parentNode (Some el) x]> (elems w)) w);;
    modEl el (fun e => with_children (children e ++ [r]) e)).

(** [this._eventsList.k = v] *)
Definition set_event (k : string) (v : option ref) : M unit :=
  update (fun w => with_eventsList (<[k := v]> (eventsList w)) w).

(** [this._eventsList.k], [None] when absent or [undefined]. *)
Definition get_event (w : World) (k : string) : option ref :=
  match eventsList w !! k with Some v => v | None => None end.

(** [eventsList.k && eventsList.k(arg)] *)
Definition call_event (k : string) (arg : option string) : M unit :=
  w ← get_world;
  match get_event w k with
  | Some f => update (fun w => with_calls (calls w ++ [(f, arg)]) w)
  | None => mret tt
  end.

Definition _addPrefixClass (self : ref) (ele : ref) (cls : string) : M unit :=
  i ← this self;
  let newCls :=
    match prefixClass i with
    | Val p => if truthy_str (Val p) then p +:+ cls +:+ " " +:+ cls else cls
    | _ => cls
    end in
  addClass ele newCls.

Definition _createDOM (self : ref) (content : string) : M unit :=
  popup ← createElement; modThis self (with_popupEl (Val popup));;
  container ← createElement; modThis self (with_containerEl (Val container));;
  inner ← createElement; modThis self (with_innerEl (Val inner));;
  maskE ← createElement; modThis self (with_maskEl (Val maskE));;
  closeE ← createElement; modThis self (with_closeEl (Val closeE));;
  i ← this self;
  target ← deref (targetEl i);
  modEl target (set_style "position" (Kw "relative"));;
  _addPrefixClass self popup "popup-wrapper";;
  (if decide (targetEl i = Val body) then addClass popup "popup-inwindow" else mret tt);;
  (if truthy (mask i) then
     _addPrefixClass self maskE "popup-mask";;
     appendChild popup maskE
   else mret tt);;
  _addPrefixClass self closeE "popup-close";;
  appendChild container closeE;;
  _addPrefixClass self container "popup-container";;
  _addPrefixClass self inner "popup-inner";;
  set_innerHTML inner content;;
  appendChild container inner;;
  appendChild popup container;;
  modEl popup (set_style "display" (Kw "none"));;
  appendChild target popup.

Definition _bindEvents (self : ref) : M unit :=
  i ← this self;
  f ← fresh;
  addEvent (containerEl i) "click touchstart" f (OnContainerFn self);;
  if truthy (mask i) then
    g ← fresh;
    addEvent (maskEl i) "click touchstart" g (OnMaskFn self)
  else mret tt.

Definition _calculateSize (self : ref) : M unit :=
  i ← this self;
  inner ← deref (innerEl i);
  modEl inner (set_style "width" (Kw ""));;
  modEl inner (set_style "height" (Kw ""));;
  w1 ← get_world;
  let adjustWidth := (offsetSize host w1 inner).1 in
  let adjustHeight := (offsetSize host w1 inner).2 in
  rootEl ← (if decide (targetEl i = Val body) then mret documentElement
            else deref (targetEl i));
  root ← getEl rootEl;
  let maxHeight := clientHeight root in
  let maxWidth := clientWidth root in
  wh ← (if adjustWidth >? maxWidth - 100 then
          modEl inner (set_style "overflowX" (Kw "scroll"));;
          w2 ← get_world;
          mret (maxWidth - 100, (offsetSize host w2 inner).2)
        else
          modEl inner (set_style "overflowX" (Kw "hidden"));;
          mret (adjustWidth, adjustHeight));
  wh ← (if wh.2 >? maxHeight - 80 then
          modEl inner (set_style "overflowY" (Kw "scroll"));;
          w3 ← get_world;
          mret ((offsetSize host w3 inner).1, maxHeight - 80)
        else
          modEl inner (set_style "overflowY" (Kw "hidden"));;
          mret wh);
  let adjustWidth := wh.1 in
  let adjustHeight := wh.2 in
  modEl inner (set_style "width" (Px adjustWidth));;
  modEl inner (set_style "height" (Px adjustHeight));;
  container ← deref (containerEl i);
  modEl container (set_style "width" (Px adjustWidth));;
  modEl container (set_style "height" (Px adjustHeight));;
  if truthy (mask i) then
    modEl container (set_style "top" (Kw "50%"));;
    modEl container (set_style "left" (Kw "50%"));;
    modEl container (set_style "marginTop" (HalfPx (- adjustHeight)));;
    modEl container (set_style "marginLeft" (HalfPx (- adjustWidth)))
  else
    modEl container (set_style "position" (Kw "relative"));;
    modEl container (set_style "top" (Num 0));;
    modEl container (set_style "left" (Num 0));;
    modEl container (set_style "marginTop" (Num 0));;
    modEl container (set_style "marginLeft" (Num 0));;
    popup ← deref (popupEl i);
    modEl popup (set_style "width" (Px adjustHeight));;
    modEl popup (set_style "height" (Px adjustHeight));;
    modEl popup (set_style "top" (Kw "50%"));;
    modEl popup (set_style "left" (Kw "50%"));;
    modEl popup (set_style "marginTop" (HalfPx (- adjustHeight)));;
    modEl popup (set_style "marginLeft" (HalfPx (- adjustWidth))).

(** [setTimeout(function(){ self._calculateSize() }, delay)] *)
Definition setTimeout (self : ref) (delay : Z) : M unit :=
  update (fun w => with_timers (timers w ++ [(delay, self)]) w).

Definition open (self : ref) : M ref :=
  i ← this self;
  target ← deref (targetEl i);
  t ← getEl target;
  let top := scrollTop t in
  modThis self (with_isClosed (Val false));;
  (if truthy (mask i) then
     (match _scrollEvent i with
      | Undefined => modThis self (with_scrollEvent (Val (onscroll t)))
      | _ => mret tt
      end);;
     target ← deref (targetEl i);
     modEl target (with_onscroll (HLock self top))
   else mret tt);;
  popup ← deref (popupEl i);
  modEl popup (set_style "display" (Kw ""));;
  (if autoSize i then
     match delayCalculate i with
     | Val d => setTimeout self d
     | _ => _calculateSize self
     end
   else mret tt);;
  mret self.

(** [close] and [destroy] call each other; [fuel] bounds the depth of the
    calls.  Depth 2 is never exceeded ([close_fuel_enough],
    [destroy_fuel_enough] below): [destroy] clears [disposable] before it
    calls [close], and [close] sets [isClosed] before it calls [destroy]. *)
Fixpoint close_fuel (fuel : nat) (self : ref) {struct fuel} : M CloseResult :=
  match fuel with
  | O => throw OutOfFuel
  | S n =>
      modThis self (with_isClosed (Val true));;
      i ← this self;
      (if truthy (mask i) then
         target ← deref (targetEl i);
         modEl target (with_onscroll (as_handler (_scrollEvent i)))
       else mret tt);;
      popup ← deref (popupEl i);
      modEl popup (set_style "display" (Kw "none"));;
      if truthy (disposable i) then
        destroy_fuel n self;;
        mret ReturnedTrue
      else mret (ReturnedThis self)
  end
with destroy_fuel (fuel : nat) (self : ref) {struct fuel} : M unit :=
  match fuel with
  | O => throw OutOfFuel
  | S n =>
      i ← this self;
      (if negb (truthy (isClosed i)) then
         modThis self (with_disposable (Val false));;
         close_fuel n self;;
         mret tt
       else mret tt);;
      i ← this self;
      f ← fresh;
      removeEvent (containerEl i) "click touchstart" f (OnContainerFn self);;
      (if truthy (mask i) then
         g ← fresh;
         removeEvent (maskEl i) "click touchstart" g (OnMaskFn self)
       else mret tt);;
      target ← deref (targetEl i);
      modEl target (set_style "position" (Kw ""));;
      modThis self (with_targetEl Null);;
      modThis self (with_disposable Null);;
      modThis self (with_mask Null);;
      popup ← deref (popupEl i);
      p ← getEl popup;
      parent ← (match parentNode p with
                | Some x => mret x
                | None => throw TypeError
                end);
      removeChild parent popup;;
      modThis self (with_popupEl Null)
  end.

Definition close (self : ref) : M CloseResult := close_fuel 2 self.
Definition destroy (self : ref) : M unit := destroy_fuel 2 self.

Definition refresh (self : ref) : M ref :=
  _calculateSize self;;
  mret self.

Definition create (self : ref) (options : Options) : M ref :=
  modThis self (with_prefixClass (Val (or_text (o_prefixClass options) "")));;
  modThis self (with_closeOnMask (undefined_or false (o_closeOnMask options)));;
  modThis self (with_autoSize (undefined_or true (o_autoSize options)));;
  modThis self (with_delayCalculate (opt_slot (o_delayCalculate options)));;
  set_event "beforeClose" (o_beforeClose options);;
  set_event "beforeClose" (o_afterClose options);;
  modThis self (with_disposable (Val false));;
  _createDOM self (content options);;
  _bindEvents self;;
  mret self.

(** The options every preset copies from its [params] object. *)
Definition preset_options (self : ref) (p : Params) : M unit :=
  modThis self (with_mask (Val (undefined_or true (p_mask p))));;
  modThis self (with_closeOnMask (undefined_or false (p_closeOnMask p)));;
  modThis self (with_autoSize (undefined_or true (p_autoSize p)));;
  modThis self (with_delayCalculate (opt_slot (p_delayCalculate p))).

(** The markup each preset builds from its arguments. *)
Definition alert_markup (args : Args) : string :=
  match args with
  | ByObject p => alert_content (txt p) (or_text (okTxt p) "确定")
  | ByPosition t _ _ => alert_content t "确定"
  end.

Definition confirm_markup (args : Args) : string :=
  match args with
  | ByObject p =>
      confirm_content (txt p) (or_text (okTxt p) "确定") (or_text (cancelTxt p) "取消")
  | ByPosition t _ _ => confirm_content t "确定" "取消"
  end.

Definition prompt_markup (args : Args) : string :=
  match args with
  | ByObject p =>
      prompt_content (txt p) (or_text (placeholder p) "请输入")
        (or_text (okTxt p) "确定") (or_text (cancelTxt p) "取消")
  | ByPosition t _ _ => prompt_content t "请输入" "确定" "取消"
  end.

Definition alert (self : ref) (args : Args) : M ref :=
  match args with
  | ByObject p =>
      preset_options self p;;
      set_event "okCallback" (okCallback p)
  | ByPosition _ (Some f) _ => set_event "okCallback" (Some f)
  | ByPosition _ None _ => mret tt
  end;;
  modThis self (with_prefixClass (Val "alert-"));;
  _createDOM self (alert_markup args);;
  _bindEvents self;;
  open self;;
  mret self.

(** What [confirm] and [prompt] do with their arguments before they build
    the markup; [txt] is assigned without [var], so it is a global. *)
Definition register_two (self : ref) (args : Args) : M unit :=
  match args with
  | ByObject p =>
      update (with_global_txt (Some (txt p)));;
      preset_options self p;;
      set_event "okCallback" (okCallback p);;
      set_event "cancelCallback" (cancelCallback p)
  | ByPosition t (Some f) g =>
      update (with_global_txt (Some t));;
      set_event "okCallback" (Some f);;
      set_event "cancelCallback" g
  | ByPosition t None _ => update (with_global_txt (Some t))
  end.

Definition confirm (self : ref) (args : Args) : M ref :=
  register_two self args;;
  modThis self (with_prefixClass (Val "confirm-"));;
  _createDOM self (confirm_markup args);;
  _bindEvents self;;
  open self;;
  mret self.

Definition prompt (self : ref) (args : Args) : M ref :=
  register_two self args;;
  modThis self (with_prefixClass (Val "prompot-"));;
  _createDOM self (prompt_markup args);;
  _bindEvents self;;
  i ← this self;
  okEl ← querySelector2 (containerEl i) ".prompot-ok";
  inputEl ← querySelector2 (containerEl i) ".prompot-input";
  f ← fresh;
  addEvent (match okEl with Some e => Val e | None => Null end)
    "click touchstart" f (PromptOkFn self inputEl);;
  open self;;
  match inputEl with
  | Some e => update (with_activeElement (Some e))
  | None => throw TypeError
  end;;
  mret self.

(** [_onContainer(e)], [src] being the event's target. *)
Definition _onContainer (self : ref) (src : ref) : M unit :=
  s ← getEl src;
  if hasClass s "popup-close" then
    call_event "beforeClose" None;;
    close self;;
    call_event "afterClose" None
  else if hasClass s "popup-ok" then
    close self;;
    call_event "okCallback" None
  else if hasClass s "popup-cancel" then
    close self;;
    call_event "cancelCallback" None
  else mret tt.




End Popup.

(** ** Observations on the store *)

(** The value of style property [k] of element [e]. *)
Definition sty (w : World) (e : ref) (k : string) : option Css :=
  x ← elems w !! e; style x !! k.

(** Property [f] of element [e], and of Popup object [self]. *)
Definition of_el {A} (f : Element -> A) (w : World) (e : ref) : option A :=
  f <$> elems w !! e.
Definition of_obj {A} (f : Instance -> A) (w : World) (self : ref) : option A :=
  f <$> objs w !! self.

(** The object that [self._eventsList] denotes: [self] has no own property
    of that name, so the lookup ends at the prototype's object. *)
Definition _eventsList (w : World) (self : ref) : option (gmap string (option ref)) :=
  _ ← objs w !! self; Some (eventsList w).

(** [self] has its DOM subtree, as [_createDOM] leaves it: the instance
    points at the target [t], the wrapper [p], the container [c], the inner
    element [n] and the mask element [m]; these are five different elements
    of the document, none of [p], [c], [n], [m] is the root element, and the
    wrapper hangs under the target. *)
Definition built (w : World) (self t p c n m : ref) : bool :=
  match objs w !! self with
  | Some i =>
      bool_decide (targetEl i = Val t) && bool_decide (popupEl i = Val p)
      && bool_decide (containerEl i = Val c) && bool_decide (innerEl i = Val n)
      && bool_decide (maskEl i = Val m)
      && bool_decide (NoDup [t; p; c; n; m])
      && bool_decide (documentElement ∉ [p; c; n; m])
      && forallb (fun e => bool_decide (is_Some (elems w !! e)))
           [documentElement; t; p; c; n; m]
      && bool_decide (of_el parentNode w p = Some (Some t))
  | None => false
  end.

(** The element whose client box bounds the popup: the root element when the
    target is the body, else the target. *)
Definition rootEl (t : ref) : ref :=
  if decide (t = body) then documentElement else t.

(** The client box that bounds the popup. *)
Definition viewport (w : World) (t : ref) : Z * Z :=
  match elems w !! rootEl t with
  | Some r => (clientWidth r, clientHeight r)
  | None => (0, 0)
  end.

(** The document [w] after [e.style.k = v]. *)
Definition restyle (e : ref) (k : string) (v : Css) (w : World) : World :=
  final (modEl e (set_style k v) w).

(** The inner element's natural size: what the browser measures once the
    forced width and height of [n] are cleared. *)
Definition natural_size (host : Host) (w : World) (n : ref) : Z * Z :=
  offsetSize host (restyle n "height" (Kw "") (restyle n "width" (Kw "") w)) n.

(** Sequences of [open] and [close] calls on one instance. *)
Inductive Op : Type := DoOpen | DoClose.

Definition run_op (host : Host) (self : ref) (o : Op) : M unit :=
  match o with
  | DoOpen => open host self;; mret tt
  | DoClose => close self;; mret tt
  end.

Definition run_ops (host : Host) (self : ref) (ops : list Op) : M unit :=
  for_each ops (run_op host self).

(** [p] occurs in [s]. *)
Fixpoint occurs (p s : string) : bool :=
  match strip_prefix p s with
  | Some _ => true
  | None =>
      match s with
      | EmptyString => false
      | String _ s' => occurs p s'
      end
  end.

(** ** A page to run the widget on

    A document of 800 by 600 whose body holds one [div class=test], a
    browser that measures every element as [nat_w] by [nat_h], resolves
    [.cls] selectors to the first element carrying the class, and parses the
    presets' markup into their elements. *)
Module Demo.

Definition html_el : Element :=
  {| className := ""; style := ∅; parentNode := None; children := [body];
     innerHTML := ""; onscroll := HNull; scrollTop := 0; clientWidth := 800;
     clientHeight := 600; listeners := []; value := "" |}.

Definition body_el : Element :=
  {| className := ""; style := ∅; parentNode := Some documentElement;
     children := [2%nat]; innerHTML := ""; onscroll := HUser 50; scrollTop := 30;
     clientWidth := 800; clientHeight := 600; listeners := []; value := "" |}.

Definition test_el : Element :=
  {| className := "test"; style := ∅; parentNode := Some body;
     children := []; innerHTML := ""; onscroll := HNull; scrollTop := 0;
     clientWidth := 400; clientHeight := 300; listeners := []; value := "" |}.

Definition page : World :=
  {| elems := <[2%nat := test_el]> (<[body := body_el]> (<[documentElement := html_el]> ∅));
     objs := ∅; eventsList := ∅; next_ref := 3; timers := []; calls := [];
     activeElement := None; global_txt := None |}.

Definition classed (cls : string) : Element := with_className cls new_element.

(** The elements of a preset's markup, found by their class attributes. *)
Definition parse (s : string) : list Element :=
  flat_map (fun cls => if occurs (quoted cls) s then [classed cls] else [])
    ["alert-content"; "alert-ok popup-ok";
     "confirm-content"; "confirm-ok popup-ok"; "confirm-cancel popup-cancel";
     "prompot-content"; "prompot-input"; "prompot-ok popup-ok";
     "prompot-cancel popup-cancel"].

(** [.cls] finds the first element (in creation order) of class [cls]; any
    other selector finds nothing. *)
Definition query (w : World) (root : option ref) (sel : string) : Query :=
  match sel with
  | String "." cls =>
      match filter (fun kv => hasClass kv.2 cls = true) (map_to_list (elems w)) with
      | [] => NoMatch
      | kv :: l => Found (foldr (fun x r => Nat.min x.1 r) kv.1 l)
      end
  | _ => NoMatch
  end.

Definition browser (nat_w nat_h : Z) : Host :=
  {| offsetSize := fun _ _ => (nat_w, nat_h); nativeQuery := query; parseHTML := parse |}.

Definition options (delay : option Z) : Options :=
  {| content := "hello"; o_prefixClass := None; o_closeOnMask := None;
     o_autoSize := None; o_delayCalculate := delay;
     o_beforeClose := Some 60%nat; o_afterClose := Some 61%nat |}.

Definition params (delay : option Z) : Params :=
  {| txt := "hello"; okTxt := None; cancelTxt := None; placeholder := None;
     p_mask := None; p_closeOnMask := None; p_autoSize := None;
     p_delayCalculate := delay; okCallback := None; cancelCallback := None |}.

(** [Popup().create(options)] on the page: the instance is object 3, its
    wrapper, container, inner, mask and close elements are 4, 5, 6, 7, 8. *)
Definition created (h : Host) (delay : option Z) : World :=
  final ((self ← Popup h None; create h self (options delay)) page).

(** The same instance after [open()]. *)
Definition opened (h : Host) (delay : option Z) : World :=
  final (open h 3 (created h delay)).

(** [Popup().alert(params)]. *)
Definition alerted (h : Host) (delay : option Z) : World :=
  final ((self ← Popup h None; alert h self (ByObject (params delay))) page).

End Demo.

(** ** Reasoning about runs *)

(** [m] run from [w] returns, with a value and a store satisfying [Q]. *)
Definition returns {A} (m : M A) (w : World) (Q : A -> World -> Prop) : Prop :=
  match m w with
  | Done a w' => Q a w'
  | Thrown _ _ => False
  end.

(** [m] run from [w] throws, with an error and a store satisfying [Q]. *)
Definition throws {A} (m : M A) (w : World) (Q : Error -> World -> Prop) : Prop :=
  match m w with
  | Done _ _ => False
  | Thrown e w' => Q e w'
  end.

Lemma returns_Done {A} (m : M A) w Q :
  returns m w Q <-> exists a w', m w = Done a w' /\ Q a w'.
Proof.
  unfold returns. destruct (m w) as [a w'|e w']; split.
  - eauto.
  - intros (? & ? & [= <- <-] & ?). done.
  - done.
  - intros (? & ? & [=] & ?).
Qed.


Lemma returns_mono {A} (m : M A) w (Q R : A -> World -> Prop) :
  returns m w Q -> (forall a w', Q a w' -> R a w') -> returns m w R.
Proof. unfold returns. destruct (m w); auto. Qed.

Section Rules.

Context {A B : Type}.

Lemma returns_bind (m : M A) (f : A -> M B) w Q :
  returns m w (fun a w' => returns (f a) w' Q) -> returns (m ≫= f) w Q.
Proof. unfold returns, mbind, M_bind. by destruct (m w). Qed.

Lemma throws_bind (m : M A) (f : A -> M B) w Q :
  returns m w (fun a w' => throws (f a) w' Q) -> throws (m ≫= f) w Q.
Proof. unfold returns, throws, mbind, M_bind. by destruct (m w). Qed.

Lemma returns_ret (a : A) w (Q : A -> World -> Prop) :
  Q a w -> returns (mret a) w Q.
Proof. done. Qed.

Lemma returns_ret_eq (a : A) w (Q : A -> World -> Prop) :
  (forall x, x = a -> Q x w) -> returns (mret a) w Q.
Proof. intros H. by apply H. Qed.

Lemma returns_deref (a : A) w (Q : A -> World -> Prop) :
  Q a w -> returns (deref (Val a)) w Q.
Proof. done. Qed.

Lemma returns_if (b : bool) (m1 m2 : M A) w Q :
  (b = true -> returns m1 w Q) -> (b = false -> returns m2 w Q) ->
  returns (if b then m1 else m2) w Q.
Proof. destruct b; auto. Qed.

End Rules.

Lemma returns_modEl e f w x (Q : unit -> World -> Prop) :
  elems w !! e = Some x ->
  Q tt (with_elems (<[e := f x]> (elems w)) w) ->
  returns (modEl e f) w Q.
Proof. unfold returns, modEl. by intros ->. Qed.

Lemma returns_getEl e w x (Q : Element -> World -> Prop) :
  elems w !! e = Some x -> Q x w -> returns (getEl e) w Q.
Proof. unfold returns, getEl. by intros ->. Qed.

Lemma returns_this self w i (Q : Instance -> World -> Prop) :
  objs w !! self = Some i -> Q i w -> returns (this self) w Q.
Proof. unfold returns, this. by intros ->. Qed.

Lemma returns_modThis self f w i (Q : unit -> World -> Prop) :
  objs w !! self = Some i ->
  Q tt (with_objs (<[self := f i]> (objs w)) w) ->
  returns (modThis self f) w Q.
Proof. unfold returns, modThis. by intros ->. Qed.

Lemma returns_get_world w (Q : World -> World -> Prop) :
  Q w w -> returns get_world w Q.
Proof. done. Qed.

Lemma returns_update f w (Q : unit -> World -> Prop) :
  Q tt (f w) -> returns (update f) w Q.
Proof. done. Qed.

Lemma returns_fresh w (Q : ref -> World -> Prop) :
  Q (next_ref w) (with_next_ref (S (next_ref w)) w) -> returns fresh w Q.
Proof. done. Qed.

(** The store is kept in constructor form, so that every field of the
    current store is read off by computation. *)
Ltac wsimpl :=
  unfold with_elems, with_objs, with_eventsList, with_next_ref, with_timers,
    with_calls, with_activeElement, with_global_txt,
    with_targetEl, with_disposable, with_mask, with_closeOnMask, with_popupEl,
    with_containerEl, with_maskEl, with_autoSize, with_scrollEvent,
    with_prefixClass, with_delayCalculate, with_isClosed, with_innerEl,
    with_closeEl;
  cbn [elems objs eventsList next_ref timers calls activeElement global_txt
       targetEl disposable mask closeOnMask popupEl containerEl maskEl
       autoSize _scrollEvent prefixClass delayCalculate isClosed innerEl
       closeEl negb truthy].

Ltac lookup_simpl :=
  repeat first [ rewrite lookup_insert_eq
               | rewrite lookup_insert_ne
                   by first [ congruence | discriminate ] ].

Ltac lookup_solve := wsimpl; lookup_simpl; first [ eassumption | reflexivity ].

(** One step of a run that returns. *)
Ltac rstep :=
  wsimpl; rewrite ?insert_insert_eq;
  lazymatch goal with
  | |- returns (_ ≫= _) _ _ => apply returns_bind
  | |- returns (mret (_, _)) _ _ => apply returns_ret_eq; intros ? ?
  | |- returns (mret _) _ _ => apply returns_ret
  | |- returns (modEl _ _) _ _ => eapply returns_modEl; [ lookup_solve | ]
  | |- returns (getEl _) _ _ => eapply returns_getEl; [ lookup_solve | ]
  | |- returns (this _) _ _ => eapply returns_this; [ lookup_solve | ]
  | |- returns (modThis _ _) _ _ => eapply returns_modThis; [ lookup_solve | ]
  | |- returns (deref (Val _)) _ _ => apply returns_deref
  | |- returns (if _ then _ else _) _ _ => apply returns_if; intros ?
  | |- returns get_world _ _ => apply returns_get_world
  | |- returns (update _) _ _ => apply returns_update
  | |- returns fresh _ _ => apply returns_fresh
  | |- throws (_ ≫= _) _ _ => apply throws_bind
  end.

(** Reading a style property or a field off a store in constructor form. *)
Ltac observe :=
  unfold sty, of_el, of_obj; wsimpl; lookup_simpl;
  repeat match goal with H : _ !! _ = Some _ |- _ => rewrite H end;
  cbn [mbind option_bind fmap option_fmap option_map];
  unfold set_style;
  cbn [style with_style parentNode with_parentNode onscroll with_onscroll
       className children innerHTML scrollTop clientWidth clientHeight
       listeners value with_children with_listeners with_className with_innerHTML];
  lookup_simpl.

Lemma built_elim w self t p c n m :
  built w self t p c n m = true ->
  exists i he te pe ce ne me,
    (objs w !! self = Some i /\ targetEl i = Val t /\ popupEl i = Val p /\
     containerEl i = Val c /\ innerEl i = Val n /\ maskEl i = Val m) /\
    (elems w !! documentElement = Some he /\ elems w !! t = Some te /\
     elems w !! p = Some pe /\ elems w !! c = Some ce /\
     elems w !! n = Some ne /\ elems w !! m = Some me /\
     parentNode pe = Some t) /\
    (t <> p /\ t <> c /\ t <> n /\ t <> m /\ p <> c /\ p <> n /\ p <> m /\
     c <> n /\ c <> m /\ n <> m) /\
    (documentElement <> p /\ documentElement <> c /\ documentElement <> n /\
     documentElement <> m).
Proof.
  unfold built. destruct (objs w !! self) as [i|]; [|done].
  rewrite !andb_true_iff, !bool_decide_eq_true. cbn [forallb].
  rewrite !andb_true_iff, !bool_decide_eq_true.
  intros ((((((((Ht & Hp) & Hc) & Hn) & Hm) & Hnd) & Hroot) & Hex) & Hpar).
  destruct Hex as ([he Hhe] & [te Hte] & [pe Hpe] & [ce Hce] & [ne Hne] & [me Hme] & _).
  exists i, he, te, pe, ce, ne, me.
  split; [done|]. split.
  - unfold of_el in Hpar. rewrite Hpe in Hpar. by simplify_eq/=.
  - rewrite !NoDup_cons in Hnd. rewrite !not_elem_of_cons in Hnd, Hroot.
    destruct_and?. repeat split; try assumption; set_solver.
Qed.

Ltac use_built H :=
  let i := fresh "i" in
  let he := fresh "he" in let te := fresh "te" in let pe := fresh "pe" in
  let ce := fresh "ce" in let ne := fresh "ne" in let me := fresh "me" in
  destruct (built_elim _ _ _ _ _ _ _ H)
    as (i & he & te & pe & ce & ne & me
        & (?Hobj & ?Htarget & ?Hpopup & ?Hcontainer & ?Hinner & ?HmaskEl)
        & (?Ehtml & ?Et & ?Ep & ?Ec & ?En & ?Em & ?Hparent)
        & (? & ? & ? & ? & ? & ? & ? & ? & ? & ?) & (? & ? & ? & ?));
  destruct i
    as [i_target i_disposable i_mask i_closeOnMask i_popup i_container i_maskEl
              i_autoSize i_scrollEvent i_prefixClass i_delay i_isClosed i_inner
              i_closeEl];
  cbn [targetEl popupEl containerEl innerEl maskEl] in *; subst.

(** [w'] differs from [w] in style properties only. *)
Definition same_but_styles (w w' : World) : Prop :=
  objs w' = objs w /\ eventsList w' = eventsList w /\ next_ref w' = next_ref w /\
  timers w' = timers w /\ calls w' = calls w /\
  activeElement w' = activeElement w /\ global_txt w' = global_txt w /\
  forall e, with_style ∅ <$> elems w' !! e = with_style ∅ <$> elems w !! e.

Lemma natural_size_eq host w n ne :
  elems w !! n = Some ne ->
  natural_size host w n =
  offsetSize host
    (with_elems (<[n := set_style "height" (Kw "") (set_style "width" (Kw "") ne)]>
                   (elems w)) w) n.
Proof.
  intros En. unfold natural_size, restyle, modEl. rewrite En. cbn [final].
  wsimpl. rewrite lookup_insert_eq. cbn [final]. wsimpl.
  by rewrite insert_insert_eq.
Qed.

Ltac frame_styles :=
  repeat split;
  let e := fresh "e" in
  intros e; wsimpl;
  repeat match goal with
  | |- context [<[?k := _]> _ !! e] =>
      destruct (decide (k = e)) as [<-|?];
      [ lookup_simpl;
        repeat match goal with H : _ !! _ = Some _ |- _ => rewrite H end;
        reflexivity
      | rewrite (lookup_insert_ne _ k e) by assumption ]
  end; reflexivity.

Ltac size_arith :=
  subst; cbn [fst snd] in *;
  repeat match goal with
  | H : (_ >? _) = true |- _ => apply Z.gtb_lt in H
  | H : (_ >? _) = false |- _ => rewrite Z.gtb_ltb, Z.ltb_ge in H
  end;
  repeat split; try discriminate; try lia.

(** What size adaptation does on a built instance: it returns, changes
    styles only, and writes one width and one height to the inner element and
    the container. *)
Lemma calculateSize_returns host w self t p c n m :
  built w self t p c n m = true ->
  returns (_calculateSize host self) w (fun _ w' =>
    same_but_styles w w' /\
    exists aw ah ox oy,
      (sty w' n "width" = Some (Px aw) /\ sty w' n "height" = Some (Px ah) /\
       sty w' c "width" = Some (Px aw) /\ sty w' c "height" = Some (Px ah) /\
       sty w' n "overflowX" = Some (Kw ox) /\ sty w' n "overflowY" = Some (Kw oy)) /\
      ah <= (viewport w t).2 - 80 /\
      (oy = "hidden" -> aw <= (viewport w t).1 - 100) /\
      ((natural_size host w n).1 <= (viewport w t).1 - 100 ->
       (natural_size host w n).2 <= (viewport w t).2 - 80 ->
       aw = (natural_size host w n).1 /\ ah = (natural_size host w n).2 /\
       ox = "hidden" /\ oy = "hidden")).
Proof.
  intros H. use_built H. clear H.
  rewrite (natural_size_eq host w n ne) by assumption.
  unfold viewport, rootEl.
  destruct w as [el ob ev nr tm cl ae gt]. cbn [elems objs] in *.
  unfold _calculateSize.
  destruct (decide (t = body)) as [->|Hb].
  - do 10 rstep. rewrite decide_True by reflexivity. rewrite Ehtml.
    repeat rstep.
    all: (split; [frame_styles|]).
    all: (do 4 eexists; split; [repeat split; observe; reflexivity|]).
    all: size_arith.
  - do 10 rstep. rewrite decide_False by congruence. rewrite Et.
    repeat rstep.
    all: (split; [frame_styles|]).
    all: (do 4 eexists; split; [repeat split; observe; reflexivity|]).
    all: size_arith.
Qed.

Lemma built_intro w self t p c n m i pe :
  objs w !! self = Some i ->
  targetEl i = Val t -> popupEl i = Val p -> containerEl i = Val c ->
  innerEl i = Val n -> maskEl i = Val m ->
  (t <> p /\ t <> c /\ t <> n /\ t <> m /\ p <> c /\ p <> n /\ p <> m /\
   c <> n /\ c <> m /\ n <> m) ->
  (documentElement <> p /\ documentElement <> c /\ documentElement <> n /\
   documentElement <> m) ->
  is_Some (elems w !! documentElement) -> is_Some (elems w !! t) ->
  elems w !! p = Some pe -> parentNode pe = Some t ->
  is_Some (elems w !! c) -> is_Some (elems w !! n) -> is_Some (elems w !! m) ->
  built w self t p c n m = true.
Proof.
  intros Hi Ht Hp Hc Hn Hm Hd Hr Eh Et Ep Hpar Ec En Em.
  unfold built. rewrite Hi. cbn [forallb].
  rewrite !andb_true_iff, !bool_decide_eq_true.
  repeat split; try assumption.
  - rewrite !NoDup_cons, !not_elem_of_cons. destruct_and?.
    repeat split; try assumption; try apply not_elem_of_nil. apply NoDup_nil_2.
  - rewrite !not_elem_of_cons. destruct_and?.
    repeat split; try assumption. apply not_elem_of_nil.
  - by rewrite Ep.
  - unfold of_el. rewrite Ep. cbn. by rewrite Hpar.
Qed.

Lemma same_but_styles_of_el {A} (f : Element -> A) w w' e :
  same_but_styles w w' ->
  (forall x, f (with_style ∅ x) = f x) ->
  of_el f w' e = of_el f w e.
Proof.
  intros (_ & _ & _ & _ & _ & _ & _ & He) Hf. specialize (He e).
  unfold of_el. destruct (elems w' !! e) as [x'|], (elems w !! e) as [x|];
    cbn [fmap option_fmap option_map] in *; try done.
  assert (with_style ∅ x' = with_style ∅ x) as E by congruence.
  by rewrite <- (Hf x'), <- (Hf x), E.
Qed.

Lemma same_but_styles_is_Some w w' e :
  same_but_styles w w' -> is_Some (elems w !! e) -> is_Some (elems w' !! e).
Proof.
  intros (_ & _ & _ & _ & _ & _ & _ & He) [x Hx]. specialize (He e).
  rewrite Hx in He. destruct (elems w' !! e); [eauto | done].
Qed.

Lemma same_but_styles_built w w' self t p c n m :
  same_but_styles w w' ->
  built w self t p c n m = true -> built w' self t p c n m = true.
Proof.
  intros Hs H. pose proof Hs as (Hobjs & _).
  destruct (built_elim _ _ _ _ _ _ _ H)
    as (i & he & te & pe & ce & ne & me
        & (Hobj & Htarget & Hpopup & Hcontainer & Hinner & HmaskEl)
        & (Ehtml & Et & Ep & Ec & En & Em & Hparent) & Hd & Hr).
  assert (Hpar : of_el parentNode w' p = Some (Some t)).
  { rewrite (same_but_styles_of_el parentNode w w') by done.
    unfold of_el. rewrite Ep. cbn. by rewrite Hparent. }
  unfold of_el in Hpar.
  destruct (elems w' !! p) as [pe'|] eqn:Ep'; [|done]. cbn in Hpar.
  eapply (built_intro w' self t p c n m i pe'); try done;
    try (eapply same_but_styles_is_Some; [exact Hs|eauto]).
  - by rewrite Hobjs.
  - by simplify_eq.
Qed.

(** As [use_built], for an instance [i] and a target element [te] already
    named in the context. *)
Ltac use_built_at H i te :=
  let i0 := fresh "i" in
  let he := fresh "he" in let te0 := fresh "te" in let pe := fresh "pe" in
  let ce := fresh "ce" in let ne := fresh "ne" in let me := fresh "me" in
  destruct (built_elim _ _ _ _ _ _ _ H)
    as (i0 & he & te0 & pe & ce & ne & me
        & (?Hobj & ?Htarget & ?Hpopup & ?Hcontainer & ?Hinner & ?HmaskEl)
        & (?Ehtml & ?Et & ?Ep & ?Ec & ?En & ?Em & ?Hparent)
        & (? & ? & ? & ? & ? & ? & ? & ? & ? & ?) & (? & ? & ? & ?));
  assert (i0 = i) by congruence; assert (te0 = te) by congruence; subst i0 te0;
  destruct i
    as [i_target i_disposable i_mask i_closeOnMask i_popup i_container i_maskEl
              i_autoSize i_scrollEvent i_prefixClass i_delay i_isClosed i_inner
              i_closeEl];
  cbn [targetEl popupEl containerEl innerEl maskEl] in *; subst.

Lemma viewport_same_but_styles w w' t :
  same_but_styles w w' -> viewport w' t = viewport w t.
Proof.
  intros Hs. unfold viewport.
  pose proof (same_but_styles_of_el clientWidth w w' (rootEl t) Hs (fun _ => eq_refl)) as Hw.
  pose proof (same_but_styles_of_el clientHeight w w' (rootEl t) Hs (fun _ => eq_refl)) as Hh.
  unfold of_el in *.
  destruct (elems w' !! rootEl t), (elems w !! rootEl t); cbn in *; congruence.
Qed.

Lemma same_but_styles_of_obj {A} (f : Instance -> A) w w' self :
  same_but_styles w w' -> of_obj f w' self = of_obj f w self.
Proof. intros (Ho & _). unfold of_obj. by rewrite Ho. Qed.

Lemma body_not_root : body <> documentElement.
Proof. discriminate. Qed.

(** An element of the start is still there. *)
Ltac some_now :=
  lazymatch goal with
  | |- is_Some _ => wsimpl; rewrite ?lookup_insert_is_Some'; by eauto 10
  end.

(** [built] for a store in constructor form. *)
Ltac built_now :=
  eapply built_intro;
  [ lookup_solve | reflexivity | reflexivity | reflexivity | reflexivity
  | reflexivity | by repeat split | by repeat split
  | some_now | some_now | lookup_solve | cbn; assumption
  | some_now | some_now | some_now ].

(** The outcome of the tests met on the way, used everywhere. *)
Ltac use_tests :=
  repeat match goal with
  | H : truthy ?x = _ |- context [truthy ?x] => rewrite H
  | H : negb (truthy ?x) = true |- _ => apply negb_true_iff in H
  | H : negb (truthy ?x) = false |- _ => apply negb_false_iff in H
  | H : ?x = true |- _ => is_var x; subst x
  | H : ?x = false |- _ => is_var x; subst x
  end.

(** The client box read in two stores in constructor form is the same. *)
Ltac viewport_eq t :=
  unfold viewport, rootEl; wsimpl;
  pose proof body_not_root;
  destruct (decide (t = body)); subst; lookup_simpl;
  repeat match goal with H : _ !! _ = Some _ |- _ => rewrite H end;
  reflexivity.

(** Size adaptation met on the way: [calculateSize_returns] is used, and its
    bounds are brought back to the client box of the store [w0] of the
    start. *)
Ltac calc_step t p c n m :=
  lazymatch goal with
  | |- returns (_calculateSize ?host ?self) ?W _ =>
      let Hs := fresh "Hs" in
      let Hah := fresh "Hah" in
      let Haw := fresh "Haw" in
      eapply returns_mono;
      [ eapply (calculateSize_returns host W self t p c n m); built_now
      | intros [] ? (Hs & ? & ? & ? & ? & (? & ? & ? & ? & ? & ?) & Hah & Haw & _) ]
  end.

Lemma typeArr_click_touchstart : typeArr "click touchstart" = ["click"; "touchstart"].
Proof. reflexivity. Qed.

Ltac conj_split := repeat match goal with |- _ /\ _ => split end.

(** Fields of elements in constructor form. *)
Ltac esimpl :=
  unfold set_style;
  cbn [style with_style parentNode with_parentNode onscroll with_onscroll
       className children innerHTML scrollTop clientWidth clientHeight
       listeners value with_children with_listeners with_className
       with_innerHTML].

Ltac use_built_for H i te pe :=
  let i0 := fresh "i" in
  let he := fresh "he" in let te0 := fresh "te" in let pe0 := fresh "pe" in
  let ce := fresh "ce" in let ne := fresh "ne" in let me := fresh "me" in
  destruct (built_elim _ _ _ _ _ _ _ H)
    as (i0 & he & te0 & pe0 & ce & ne & me
        & (?Hobj & ?Htarget & ?Hpopup & ?Hcontainer & ?Hinner & ?HmaskEl)
        & (?Ehtml & ?Et & ?Ep & ?Ec & ?En & ?Em & ?Hparent)
        & (? & ? & ? & ? & ? & ? & ? & ? & ? & ?) & (? & ? & ? & ?));
  assert (i0 = i) by congruence; assert (te0 = te) by congruence;
  assert (pe0 = pe) by congruence; subst i0 te0 pe0;
  destruct i
    as [i_target i_disposable i_mask i_closeOnMask i_popup i_container i_maskEl
              i_autoSize i_scrollEvent i_prefixClass i_delay i_isClosed i_inner
              i_closeEl];
  cbn [targetEl disposable mask closeOnMask popupEl containerEl maskEl
       autoSize _scrollEvent prefixClass delayCalculate isClosed innerEl
       closeEl] in *; subst.

Ltac step :=
  use_tests;
  first
  [ rstep
  | lazymatch goal with
    | |- returns (removeEvent _ _ _ _) _ _ =>
        unfold removeEvent, eventHandler; rewrite typeArr_click_touchstart;
        cbn [for_each]
    | |- returns (removeChild _ _) _ _ => unfold removeChild
    | |- returns (match parentNode _ with _ => _ end) _ _ =>
        esimpl; match goal with H : parentNode _ = Some _ |- _ => rewrite H end
    | |- returns (if decide (parentNode _ = _) then _ else _) _ _ =>
        esimpl; match goal with H : parentNode _ = Some _ |- _ => rewrite H end;
        rewrite decide_True by reflexivity
    end ].

(** What [open] does on a built instance. *)
Lemma open_returns host w self t p c n m i te :
  built w self t p c n m = true ->
  objs w !! self = Some i -> elems w !! t = Some te ->
  returns (open host self) w (fun r w' =>
    r = self /\ built w' self t p c n m = true /\
    (of_obj isClosed w' self = Some (Val false) /\
     of_obj _scrollEvent w' self =
       Some (if truthy (mask i) then
               match _scrollEvent i with
               | Undefined => Val (onscroll te)
               | s => s
               end
             else _scrollEvent i) /\
     of_obj disposable w' self = Some (disposable i) /\
     of_obj mask w' self = Some (mask i) /\
     of_obj autoSize w' self = Some (autoSize i) /\
     of_obj delayCalculate w' self = Some (delayCalculate i)) /\
    (of_el onscroll w' t =
       Some (if truthy (mask i) then HLock self (scrollTop te) else onscroll te) /\
     of_el scrollTop w' t = Some (scrollTop te)) /\
    (eventsList w' = eventsList w /\
     timers w' =
       if autoSize i then
         match delayCalculate i with
         | Val d => (timers w ++ [(d, self)])%list
         | _ => timers w
         end
       else timers w) /\
    (autoSize i = true -> (forall d, delayCalculate i <> Val d) ->
     exists aw ah oy,
       sty w' c "width" = Some (Px aw) /\ sty w' c "height" = Some (Px ah) /\
       sty w' n "overflowY" = Some (Kw oy) /\
       ah <= (viewport w t).2 - 80 /\
       (oy = "hidden" -> aw <= (viewport w t).1 - 100))).
Proof.
  intros H Hi Hte. use_built_at H i te. clear H.
  destruct w as [el ob ev nr tm cl ae gt]. cbn [elems objs] in *.
  unfold open, setTimeout.
  destruct i_scrollEvent as [| |h]; destruct i_delay as [| |d];
    repeat step; use_tests.
  all: try calc_step t p c n m.
  all: try step.
  all: split; [reflexivity|].
  all: split; [first [built_now | eapply same_but_styles_built; [eassumption|built_now]]|].
  all: split;
    [ repeat split; rewrite ?(same_but_styles_of_obj _ _ _ _ Hs); observe; reflexivity |].
  all: split;
    [ split; rewrite ?(same_but_styles_of_el _ _ _ _ Hs) by (intros; reflexivity);
      observe; reflexivity |].
  all: split;
    [ try (destruct Hs as (_ & -> & _ & -> & _)); split; reflexivity |].
  all: intros Ha Hd; try discriminate; try (by destruct (Hd _ eq_refl)).
  all: do 3 eexists; do 3 (split; [eassumption|]).
  all: match type of Hah with
       | context [viewport ?W ?t'] =>
           match goal with
           | |- context [viewport ?W0 t'] =>
               replace (viewport W0 t') with (viewport W t') by viewport_eq t'
           end
       end; by split.
Qed.


Lemma destroy_returns k w self t p c n m i te pe :
  built w self t p c n m = true ->
  objs w !! self = Some i -> elems w !! t = Some te -> elems w !! p = Some pe ->
  truthy (isClosed i) = true \/ k <> 0%nat ->
  returns (destroy_fuel (S k) self) w (fun _ w' =>
    (of_obj targetEl w' self = Some Null /\ of_obj popupEl w' self = Some Null /\
     of_obj disposable w' self = Some Null /\ of_obj mask w' self = Some Null) /\
    (of_obj containerEl w' self = Some (Val c) /\ of_obj maskEl w' self = Some (Val m) /\
     of_obj innerEl w' self = Some (Val n) /\ of_obj closeEl w' self = Some (closeEl i)) /\
    of_obj isClosed w' self = Some (if truthy (isClosed i) then isClosed i else Val true) /\
    (sty w' t "position" = Some (Kw "") /\
     of_el parentNode w' p = Some None /\
     of_el children w' t = Some (filter (fun x => x <> p) (children te))) /\
    (of_el onscroll w' t =
       Some (if truthy (isClosed i) then onscroll te
             else if truthy (mask i) then as_handler (_scrollEvent i)
             else onscroll te) /\
     sty w' p "display" =
       (if truthy (isClosed i) then style pe !! "display" else Some (Kw "none"))) /\
    (is_Some (elems w' !! n) /\ is_Some (elems w' !! c)) /\
    (timers w' = timers w /\ eventsList w' = eventsList w)).
Proof.
  intros H Hi Hte Hpe Hk. use_built_for H i te pe. clear H.
  destruct w as [el ob ev nr tm cl ae gt]. cbn [elems objs] in *.
  destruct (truthy i_isClosed) eqn:Hclosed.
  - cbn [destroy_fuel].
    repeat step.
    all: repeat split; try some_now; observe; try reflexivity.
  - destruct Hk as [|Hk]; [discriminate|].
    destruct k as [|k]; [done|]. cbn [destroy_fuel close_fuel].
    repeat step.
    all: repeat split; try some_now; observe; try reflexivity.
Qed.

(** What [close] does on a built instance, disposable or not. *)
Lemma close_returns k w self t p c n m i te pe :
  built w self t p c n m = true ->
  objs w !! self = Some i -> elems w !! t = Some te -> elems w !! p = Some pe ->
  returns (close_fuel (S (S k)) self) w (fun r w' =>
    (of_obj isClosed w' self = Some (Val true) /\
     sty w' p "display" = Some (Kw "none") /\
     of_el onscroll w' t =
       Some (if truthy (mask i) then as_handler (_scrollEvent i) else onscroll te) /\
     of_el scrollTop w' t = Some (scrollTop te) /\
     timers w' = timers w /\ eventsList w' = eventsList w) /\
    if truthy (disposable i) then
      r = ReturnedTrue /\
      (of_obj targetEl w' self = Some Null /\ of_obj popupEl w' self = Some Null /\
       of_obj disposable w' self = Some Null /\ of_obj mask w' self = Some Null) /\
      (of_obj containerEl w' self = Some (Val c) /\
       of_obj maskEl w' self = Some (Val m) /\
       of_obj innerEl w' self = Some (Val n) /\
       of_obj closeEl w' self = Some (closeEl i)) /\
      (sty w' t "position" = Some (Kw "") /\
       of_el parentNode w' p = Some None /\
       of_el children w' t = Some (filter (fun x => x <> p) (children te))) /\
      is_Some (elems w' !! n)
    else
      r = ReturnedThis self /\ built w' self t p c n m = true /\
      of_obj _scrollEvent w' self = Some (_scrollEvent i) /\
      of_obj disposable w' self = Some (disposable i) /\
      of_obj mask w' self = Some (mask i) /\
      of_obj autoSize w' self = Some (autoSize i) /\
      of_obj delayCalculate w' self = Some (delayCalculate i)).
Proof.
  intros H Hi Hte Hpe. use_built_for H i te pe. clear H.
  destruct w as [el ob ev nr tm cl ae gt]. cbn [elems objs] in *.
  cbn [close_fuel destroy_fuel].
  repeat step.
  all: use_tests; (split; [conj_split; observe; reflexivity|]).
  all: conj_split; try reflexivity.
  all: try some_now.
  all: try built_now.
  all: observe; try reflexivity.
Qed.

(** *** The recursion of [close] and [destroy] stops at depth 2 *)

Lemma bind_ext {A B} (m : M A) (f g : A -> M B) w :
  (forall a w', m w = Done a w' -> f a w' = g a w') ->
  (m ≫= f) w = (m ≫= g) w.
Proof. intros H. unfold mbind, M_bind. destruct (m w); auto. Qed.

Lemma bind_ext_l {A B} (m m' : M A) (f : A -> M B) w :
  m w = m' w -> (m ≫= f) w = (m' ≫= f) w.
Proof. intros H. unfold mbind, M_bind. by rewrite H. Qed.

Lemma destroy_fuel_closed k self w :
  (forall i, objs w !! self = Some i -> truthy (isClosed i) = true) ->
  destroy_fuel (S k) self w = destroy_fuel 1 self w.
Proof.
  intros H. cbn [destroy_fuel]. apply bind_ext. intros i w' Hi.
  unfold this in Hi. destruct (objs w !! self) as [i'|] eqn:E; [|done].
  injection Hi as -> ->. by rewrite (H i).
Qed.

Lemma close_fuel_kept k self w :
  (forall i, objs w !! self = Some i -> truthy (disposable i) = false) ->
  close_fuel (S k) self w = close_fuel 1 self w.
Proof.
  intros H. cbn [close_fuel].
  unfold mbind, M_bind, modThis, this.
  destruct (objs w !! self) as [i|] eqn:E; [|done]. wsimpl.
  rewrite lookup_insert_eq. wsimpl. rewrite (H i) by done. reflexivity.
Qed.

Lemma modEl_objs e f w a w' : modEl e f w = Done a w' -> objs w' = objs w.
Proof. unfold modEl. destruct (elems w !! e); [|done]. by intros [= _ <-]. Qed.

Lemma deref_same {A} (s : slot A) w a w' : deref s w = Done a w' -> w' = w.
Proof. destruct s; try done. by intros [= _ <-]. Qed.

Lemma this_same self w i w' :
  this self w = Done i w' -> w' = w /\ objs w !! self = Some i.
Proof. unfold this. destruct (objs w !! self); [|done]. by intros [= <- <-]. Qed.

Lemma modThis_objs self f w a w' :
  modThis self f w = Done a w' ->
  exists i, objs w !! self = Some i /\ objs w' = <[self := f i]> (objs w).
Proof.
  unfold modThis. destruct (objs w !! self) as [i|]; [|done].
  intros [= _ <-]. eauto.
Qed.

Lemma bind_Done {A B} (m : M A) (f : A -> M B) w b w' :
  (m ≫= f) w = Done b w' -> exists a w1, m w = Done a w1 /\ f a w1 = Done b w'.
Proof. unfold mbind, M_bind. destruct (m w) as [a w1|]; [eauto|done]. Qed.

(** [close] never runs out of fuel: any fuel from 2 on gives the run of
    [close]. *)
Lemma close_fuel_enough k self w :
  close_fuel (S (S k)) self w = close_fuel 2 self w.
Proof.
  cbn [close_fuel].
  apply bind_ext. intros [] w1 H1. apply modThis_objs in H1 as (i0 & _ & H1).
  apply bind_ext. intros i w2 H2. apply this_same in H2 as (-> & H2).
  rewrite H1, lookup_insert_eq in H2. injection H2 as <-.
  apply bind_ext. intros [] w3 H3.
  assert (objs w3 = objs w1) as E3.
  { destruct (truthy _); [|by injection H3 as <-].
    apply bind_Done in H3 as (a & w' & Ha & H3). apply deref_same in Ha as ->.
    by apply modEl_objs in H3. }
  apply bind_ext. intros popup w4 H4. apply deref_same in H4 as ->.
  apply bind_ext. intros [] w5 H5. apply modEl_objs in H5.
  destruct (truthy (disposable _)); [|reflexivity].
  unfold mbind, M_bind. rewrite (destroy_fuel_closed k self w5); [done|].
  intros i. rewrite H5, E3, H1, lookup_insert_eq. by intros [= <-].
Qed.

Lemma removeEvent_objs els types fn code w a w' :
  removeEvent els types fn code w = Done a w' -> objs w' = objs w.
Proof.
  unfold removeEvent, eventHandler. generalize (typeArr types). intros l.
  revert w a w'. induction l as [|ty l IH]; intros w a w'; cbn [for_each].
  - by intros [= _ <-].
  - intros H. apply bind_Done in H as ([] & w1 & H1 & H).
    apply bind_Done in H1 as (o & w0 & Ho & H1). apply deref_same in Ho as ->.
    apply modEl_objs in H1. apply IH in H. congruence.
Qed.

(** [destroy] never runs out of fuel either. *)
Lemma destroy_fuel_enough k self w :
  destroy_fuel (S (S k)) self w = destroy_fuel 2 self w.
Proof.
  cbn [destroy_fuel].
  apply bind_ext. intros i w1 H1. apply this_same in H1 as (-> & H1).
  destruct (negb (truthy (isClosed i))); [|reflexivity].
  apply bind_ext_l.
  apply bind_ext. intros [] w1 H2. apply modThis_objs in H2 as (i0 & _ & H2).
  unfold mbind, M_bind. rewrite (close_fuel_kept k self w1); [done|].
  intros i'. rewrite H2, lookup_insert_eq. by intros [= <-].
Qed.

(** *** Open/close cycles and the scroll handler of the target *)

(** What stays true of a mask-bearing instance from its first [open] on:
    the subtree is built, the flags are unchanged, the saved handler is [h0]
    and the target's scroll offset is [top]. *)
Definition cycling (w : World) (self t p c n m : ref) (d : bool)
    (h0 : Handler) (top : Z) : Prop :=
  built w self t p c n m = true /\
  of_obj mask w self = Some (Val true) /\
  of_obj disposable w self = Some (Val d) /\
  of_obj _scrollEvent w self = Some (Val h0) /\
  of_el scrollTop w t = Some top.

Lemma of_obj_Some {A} (f : Instance -> A) w self a :
  of_obj f w self = Some a -> exists i, objs w !! self = Some i /\ f i = a.
Proof.
  unfold of_obj. destruct (objs w !! self) as [i|]; [|done].
  intros [= <-]. eauto.
Qed.

Lemma of_el_Some {A} (f : Element -> A) w e a :
  of_el f w e = Some a -> exists x, elems w !! e = Some x /\ f x = a.
Proof.
  unfold of_el. destruct (elems w !! e) as [x|]; [|done].
  intros [= <-]. eauto.
Qed.

Lemma open_cycling host w self t p c n m d h0 top :
  cycling w self t p c n m d h0 top ->
  returns (open host self) w (fun _ w' =>
    cycling w' self t p c n m d h0 top /\
    of_el onscroll w' t = Some (HLock self top)).
Proof.
  intros (Hb & Hm & Hd & Hs & Ht).
  apply of_obj_Some in Hm as (i & Hi & Hm).
  apply of_obj_Some in Hd as (i' & Hi' & Hd).
  apply of_obj_Some in Hs as (i'' & Hi'' & Hs).
  apply of_el_Some in Ht as (te & Hte & Ht).
  assert (i' = i) by congruence. assert (i'' = i) by congruence. subst i' i''.
  eapply returns_mono; [by eapply open_returns|].
  intros r w' (_ & Hb' & (_ & Hs' & Hd' & Hm' & _) & (Ho & Ht') & _).
  rewrite Hm in *. cbn [truthy] in *. rewrite Hs in Hs'.
  unfold cycling. by rewrite Hb', Hs', Hd', Hm', Ho, Ht', Hd, Ht.
Qed.

Lemma close_cycling w self t p c n m h0 top :
  cycling w self t p c n m false h0 top ->
  returns (close self) w (fun _ w' =>
    cycling w' self t p c n m false h0 top /\
    of_el onscroll w' t = Some h0).
Proof.
  intros (Hb & Hm & Hd & Hs & Ht).
  apply of_obj_Some in Hm as (i & Hi & Hm).
  apply of_obj_Some in Hd as (i' & Hi' & Hd).
  apply of_obj_Some in Hs as (i'' & Hi'' & Hs).
  apply of_el_Some in Ht as (te & Hte & Ht).
  assert (i' = i) by congruence. assert (i'' = i) by congruence. subst i' i''.
  destruct (built_elim _ _ _ _ _ _ _ Hb) as (_ & _ & _ & pe & _ & _ & _ & _ & (_ & _ & Hpe & _) & _).
  eapply returns_mono; [by eapply (close_returns 0)|].
  intros r w' ((_ & _ & Ho & Ht' & _) & Hrest).
  rewrite Hd, Hm, Hs in *. cbn [truthy as_handler] in *.
  destruct Hrest as (_ & Hb' & Hs' & Hd' & Hm' & _).
  unfold cycling. by rewrite Hb', Hs', Hd', Hm', Ho, Ht', Ht.
Qed.

Lemma open_first host w self t p c n m i te d :
  built w self t p c n m = true ->
  objs w !! self = Some i -> elems w !! t = Some te ->
  mask i = Val true -> _scrollEvent i = Undefined -> disposable i = Val d ->
  returns (open host self) w (fun r w' =>
    r = self /\
    cycling w' self t p c n m d (onscroll te) (scrollTop te) /\
    of_el onscroll w' t = Some (HLock self (scrollTop te))).
Proof.
  intros Hb Hi Hte Hm Hs Hd.
  eapply returns_mono; [by eapply open_returns|].
  intros r w' (-> & Hb' & (_ & Hs' & Hd' & Hm' & _) & (Ho & Ht') & _).
  rewrite Hm, Hs in *. cbn [truthy] in *.
  unfold cycling. by rewrite Hb', Hs', Hd', Hm', Ho, Ht', Hd.
Qed.

(** The handler the target holds after the calls [ops], when it held [x]
    before them: the lock after an [open], the saved one after a [close]. *)
Definition handler_after (self : ref) (h0 : Handler) (top : Z) (x : Handler)
    (ops : list Op) : Handler :=
  match last ops with
  | Some DoOpen => HLock self top
  | Some DoClose => h0
  | None => x
  end.

Lemma handler_after_cons self h0 top x o ops :
  handler_after self h0 top x (o :: ops) =
  handler_after self h0 top (handler_after self h0 top x [o]) ops.
Proof.
  unfold handler_after. destruct ops as [|o' ops]; [done|].
  rewrite last_cons_cons.
  destruct (last (o' :: ops)) as [[]|] eqn:E; try done.
  by apply last_None in E.
Qed.

Lemma run_ops_cycling host self t p c n m h0 top ops :
  forall w x,
  cycling w self t p c n m false h0 top ->
  of_el onscroll w t = Some x ->
  returns (run_ops host self ops) w (fun _ w' =>
    cycling w' self t p c n m false h0 top /\
    of_el onscroll w' t = Some (handler_after self h0 top x ops)).
Proof.
  induction ops as [|o ops IH]; intros w x Hc Hx.
  - by apply returns_ret.
  - unfold run_ops. cbn [for_each]. apply returns_bind.
    rewrite handler_after_cons.
    destruct o; unfold run_op; apply returns_bind.
    + eapply returns_mono; [by apply open_cycling|].
      intros _ w1 (Hc1 & Hx1). apply returns_ret. by apply IH.
    + eapply returns_mono; [by apply close_cycling|].
      intros _ w1 (Hc1 & Hx1). apply returns_ret. by apply IH.
Qed.

(** Opening again and again keeps the first saved handler, whatever
    [disposable] is. *)
Lemma reopen_cycling host self t p c n m d h0 top j :
  forall w,
  cycling w self t p c n m d h0 top ->
  of_el onscroll w t = Some (HLock self top) ->
  returns (run_ops host self (replicate j DoOpen)) w (fun _ w' =>
    cycling w' self t p c n m d h0 top /\
    of_el onscroll w' t = Some (HLock self top)).
Proof.
  induction j as [|j IH]; intros w Hc Hx.
  - by apply returns_ret.
  - cbn [replicate]. unfold run_ops. cbn [for_each]. apply returns_bind.
    unfold run_op. apply returns_bind.
    eapply returns_mono; [by apply open_cycling|].
    intros _ w1 (Hc1 & Hx1). apply returns_ret. by apply IH.
Qed.

Lemma run_ops_app host self ops1 ops2 w Q :
  returns (run_ops host self ops1) w (fun _ w1 =>
    returns (run_ops host self ops2) w1 Q) ->
  returns (run_ops host self (ops1 ++ ops2)) w Q.
Proof.
  revert w. induction ops1 as [|o ops1 IH]; intros w H.
  - exact H.
  - cbn [app]. unfold run_ops in *. cbn [for_each] in *.
    apply returns_bind. unfold returns in H. unfold mbind, M_bind in H.
    unfold returns at 1. destruct (run_op host self o w) as [[] w1|]; [|done].
    apply IH. exact H.
Qed.

(** *** The deferred size adaptation *)

Lemma throws_bind_l {A B} (m : M A) (f : A -> M B) w Q :
  throws m w Q -> throws (m ≫= f) w Q.
Proof. unfold throws, mbind, M_bind. by destruct (m w). Qed.

(** Size adaptation on a destroyed instance: the inner element loses its
    forced width and height, then reading the client box of the [null]
    target throws. *)
Lemma calculateSize_destroyed host w self i n :
  objs w !! self = Some i -> targetEl i = Null -> innerEl i = Val n ->
  is_Some (elems w !! n) ->
  throws (_calculateSize host self) w (fun e w' =>
    e = TypeError /\
    sty w' n "width" = Some (Kw "") /\ sty w' n "height" = Some (Kw "") /\
    objs w' = objs w).
Proof.
  intros Hi Ht Hn [ne Hne].
  destruct i as [tg di ma cm pp ce me au se pc dc ic ie ce0].
  cbn [targetEl innerEl] in *; subst.
  destruct w as [el ob ev nr tm cl ae gt]. cbn [elems objs] in *.
  unfold _calculateSize.
  do 10 rstep. apply throws_bind_l.
  rewrite decide_False by discriminate.
  cbn. repeat split; observe; reflexivity.
Qed.



(** *** What a run leaves untouched, however it ends *)

(** [m] keeps [P]: from a store satisfying [P] it ends, normally or not, in
    a store satisfying [P]. *)
Definition keeps {A} (P : World -> Prop) (m : M A) : Prop :=
  forall w, P w -> P (final (m w)).

Section Keeps.

Variable P : World -> Prop.

(** [P] looks at the Popup objects only. *)
Hypothesis P_objs : forall w w', objs w' = objs w -> P w -> P w'.

Lemma keeps_bind {A B} (m : M A) (f : A -> M B) :
  keeps P m -> (forall a, keeps P (f a)) -> keeps P (m ≫= f).
Proof.
  intros Hm Hf w Hw. specialize (Hm w Hw). unfold mbind, M_bind.
  destruct (m w) as [a w'|e w']; [|exact Hm]. by apply Hf.
Qed.

Lemma keeps_ret {A} (a : A) : keeps P (mret a).
Proof. by intros w Hw. Qed.

Lemma keeps_throw {A} e : keeps P (throw e : M A).
Proof. by intros w Hw. Qed.

Lemma keeps_deref {A} (s : slot A) : keeps P (deref s).
Proof. by destruct s; intros w Hw. Qed.

Lemma keeps_get_world : keeps P get_world.
Proof. by intros w Hw. Qed.



Lemma keeps_getEl e : keeps P (getEl e).
Proof. intros w Hw. unfold getEl. by destruct (elems w !! e). Qed.

Lemma keeps_this self : keeps P (this self).
Proof. intros w Hw. unfold this. by destruct (objs w !! self). Qed.



End Keeps.


Section KeepsPrefix.

Variable host : Host.
Variable self : ref.
Variable v : slot string.















End KeepsPrefix.


(** *** Substrings of the markup *)

Lemma strip_prefix_app p r : strip_prefix p (p +:+ r) = Some r.
Proof.
  induction p as [|a p IH]; [done|].
  change (String a p +:+ r) with (String a (p +:+ r)). cbn [strip_prefix].
  by rewrite Ascii.eqb_refl.
Qed.

Lemma occurs_here p r : occurs p (p +:+ r) = true.
Proof.
  destruct p as [|a p]; [by destruct r|].
  change (String a p +:+ r) with (String a (p +:+ r)). cbn [occurs].
  change (String a (p +:+ r)) with (String a p +:+ r).
  by rewrite (strip_prefix_app (String a p)).
Qed.




(** ** The claims *)

(** Closed facts about runs on the demo page are settled by evaluation. *)
Ltac by_running :=
  intros; conj_split;
  first [ vm_compute; reflexivity | vm_compute; discriminate | lia ].

(** What the constructor binds the handle to, for a non-empty selector: the
    body when the selector matches, [null] when it does not; never the
    element found. *)
Lemma Popup_target host sel w :
  sel <> "" ->
  match nativeQuery host w None sel with
  | Found _ =>
      exists w', Popup host (Some sel) w = Done (next_ref w) w' /\
                 of_obj targetEl w' (next_ref w) = Some (Val body)
  | NoMatch =>
      exists w', Popup host (Some sel) w = Done (next_ref w) w' /\
                 of_obj targetEl w' (next_ref w) = Some Null
  | BadSelector => Popup host (Some sel) w = Thrown SyntaxError w
  end.
Proof.
  intros Hsel. unfold Popup, querySelector1, mbind, M_bind, get_world.
  destruct sel as [|a sel]; [done|]. cbn [truthy_str].
  destruct (nativeQuery host w None (String a sel)); [| |done];
    (eexists; split; [reflexivity|]); unfold of_obj; cbn;
    by rewrite lookup_insert_eq.
Qed.

(** C1.  The constructor never binds the handle to the element its selector
    finds: with a selector that matches (here [.test], element 2) the target
    is the body, and with one that matches nothing the target is [null]. *)
Example Popup_never_binds_the_match :
  let h := Demo.browser 100 50 in
  nativeQuery h Demo.page None ".test" = Found 2 /\
  of_obj targetEl (final (Popup h (Some ".test") Demo.page)) 3 = Some (Val body) /\
  Val body <> Val 2%nat /\
  nativeQuery h Demo.page None ".none" = NoMatch /\
  of_obj targetEl (final (Popup h (Some ".none") Demo.page)) 3 = Some Null.
Proof. by_running. Qed.

(** C2.  After [create] with [beforeClose] = function 60 and [afterClose] =
    function 61, the [beforeClose] slot holds function 61 and the
    [afterClose] slot is empty; a click on the close element then calls 61
    once, before closing, and nothing after. *)
Example create_overwrites_beforeClose :
  let h := Demo.browser 100 50 in
  let w := Demo.opened h None in
  get_event w "beforeClose" = Some 61%nat /\
  get_event w "afterClose" = None /\
  calls (final (_onContainer 3 8 w)) = [(61%nat, None)].
Proof. by_running. Qed.

(** C3.  [close] on an open instance sets [isClosed] and hides the wrapper.
    A disposable instance is destroyed on the way (its target and wrapper
    references and its flags are [null], the target's inline position is
    cleared, the wrapper has left the document) and the call returns [true],
    which is not the instance; otherwise the call returns the instance, whose
    subtree is intact. *)
Theorem close_open_instance w self t p c n m d :
  built w self t p c n m = true ->
  of_obj isClosed w self = Some (Val false) ->
  of_obj disposable w self = Some (Val d) ->
  exists r w',
    close self w = Done r w' /\
    of_obj isClosed w' self = Some (Val true) /\
    sty w' p "display" = Some (Kw "none") /\
    if d then
      r = ReturnedTrue /\ r <> ReturnedThis self /\
      (of_obj targetEl w' self = Some Null /\ of_obj popupEl w' self = Some Null /\
       of_obj disposable w' self = Some Null /\ of_obj mask w' self = Some Null) /\
      sty w' t "position" = Some (Kw "") /\
      of_el parentNode w' p = Some None
    else
      r = ReturnedThis self /\ built w' self t p c n m = true.
Proof.
  intros Hb _ Hd.
  apply of_obj_Some in Hd as (i & Hi & Hd).
  destruct (built_elim _ _ _ _ _ _ _ Hb)
    as (_ & _ & te & pe & _ & _ & _ & _ & (_ & Hte & Hpe & _) & _).
  pose proof (close_returns 0 w self t p c n m i te pe Hb Hi Hte Hpe) as H.
  apply returns_Done in H as (r & w' & Hclose & (Hc & Hdisp & _) & Hrest).
  exists r, w'. split; [exact Hclose|]. split; [exact Hc|]. split; [exact Hdisp|].
  rewrite Hd in Hrest. cbn [truthy] in Hrest. destruct d.
  - destruct Hrest as (-> & Hnull & _ & (Hpos & Hpar & _) & _).
    split; [done|]. split; [done|]. by split.
  - by destruct Hrest as (-> & Hb' & _).
Qed.

Lemma close_open_instance_witness :
  exists r w',
    close 3 (Demo.alerted (Demo.browser 100 50) None) = Done r w' /\
    r = ReturnedTrue /\ of_obj isClosed w' 3 = Some (Val true).
Proof.
  pose proof (close_open_instance (Demo.alerted (Demo.browser 100 50) None)
                3 1 4 5 6 7 true) as H.
  specialize (H ltac:(vm_compute; reflexivity) ltac:(vm_compute; reflexivity) ltac:(vm_compute; reflexivity)).
  destruct H as (r & w' & H & Hc & _ & Hr & _).
  exists r, w'. split; [exact H|]. split; [exact Hr|exact Hc].
Defined.




(** C5.  When the natural width and height of the content are below the
    client width minus 100 and the client height minus 80, size adaptation
    applies exactly the natural width and height to the inner element and the
    container, and sets both overflows of the inner element to hidden. *)
Theorem natural_size_kept host w self t p c n m :
  built w self t p c n m = true ->
  (natural_size host w n).1 < (viewport w t).1 - 100 ->
  (natural_size host w n).2 < (viewport w t).2 - 80 ->
  exists w',
    _calculateSize host self w = Done tt w' /\
    sty w' n "width" = Some (Px (natural_size host w n).1) /\
    sty w' n "height" = Some (Px (natural_size host w n).2) /\
    sty w' c "width" = Some (Px (natural_size host w n).1) /\
    sty w' c "height" = Some (Px (natural_size host w n).2) /\
    sty w' n "overflowX" = Some (Kw "hidden") /\
    sty w' n "overflowY" = Some (Kw "hidden").
Proof.
  intros Hb Hw Hh.
  pose proof (calculateSize_returns host w self t p c n m Hb) as H.
  apply returns_Done in H
    as ([] & w' & Hcalc & _ & aw & ah & ox & oy & (? & ? & ? & ? & ? & ?) & _ & _ & Hnat).
  destruct Hnat as (-> & -> & -> & ->); [lia|lia|].
  by exists w'.
Qed.

Lemma natural_size_kept_witness :
  exists w',
    _calculateSize (Demo.browser 100 50) 3 (Demo.opened (Demo.browser 100 50) None)
      = Done tt w' /\
    sty w' 5 "width" = Some (Px 100) /\ sty w' 5 "height" = Some (Px 50).
Proof.
  pose proof (natural_size_kept (Demo.browser 100 50)
                (Demo.opened (Demo.browser 100 50) None) 3 1 4 5 6 7) as H.
  specialize (H ltac:(vm_compute; reflexivity) ltac:(vm_compute; reflexivity) ltac:(vm_compute; reflexivity)).
  destruct H as (w' & H & _ & _ & Hw & Hh & _).
  exists w'. split; [exact H|]. split; [exact Hw|exact Hh].
Defined.

(** C6.  On an instance with a mask that was never opened, whose target
    holds the scroll handler [h0]: while it is open, the target's [onscroll]
    slot holds the lock handler pinning the scroll offset; the handler found
    at the first [open] is the one saved, and no later [open] replaces it;
    every [close] puts it back.  For an instance that is not disposable this
    holds along any sequence of [open] and [close] calls; a disposable one
    goes through opens and the one [close] it survives to. *)
Theorem scroll_lock_cycle host w self t p c n m h0 top :
  built w self t p c n m = true ->
  of_obj mask w self = Some (Val true) ->
  of_obj _scrollEvent w self = Some Undefined ->
  of_el onscroll w t = Some h0 -> of_el scrollTop w t = Some top ->
  (of_obj disposable w self = Some (Val false) ->
   forall ops, exists w',
     run_ops host self (DoOpen :: ops) w = Done tt w' /\
     of_obj _scrollEvent w' self = Some (Val h0) /\
     of_el onscroll w' t =
       Some (match last (DoOpen :: ops) with
             | Some DoClose => h0
             | _ => HLock self top
             end)) /\
  (of_obj disposable w self = Some (Val true) ->
   forall j, exists w1 w2,
     run_ops host self (replicate (S j) DoOpen) w = Done tt w1 /\
     of_obj _scrollEvent w1 self = Some (Val h0) /\
     of_el onscroll w1 t = Some (HLock self top) /\
     close self w1 = Done ReturnedTrue w2 /\
     of_el onscroll w2 t = Some h0).
Proof.
  intros Hb Hm Hs Ho Ht.
  apply of_obj_Some in Hm as (i & Hi & Hm).
  apply of_obj_Some in Hs as (i0 & Hi0 & Hs).
  assert (i0 = i) by congruence. subst i0. clear Hi0.
  apply of_el_Some in Ho as (te & Hte & Ho).
  apply of_el_Some in Ht as (te' & Hte' & Ht).
  assert (te' = te) by congruence. subst te' h0 top.
  split; intros Hd; apply of_obj_Some in Hd as (i2 & Hi2 & Hd);
    assert (i2 = i) by congruence; subst i2; clear Hi2.
  - intros ops.
    assert (returns (run_ops host self (DoOpen :: ops)) w (fun _ w' =>
      cycling w' self t p c n m false (onscroll te) (scrollTop te) /\
      of_el onscroll w' t =
        Some (handler_after self (onscroll te) (scrollTop te)
                (HLock self (scrollTop te)) ops))) as H.
    { unfold run_ops. cbn [for_each]. apply returns_bind.
      unfold run_op at 1. apply returns_bind.
      eapply returns_mono; [by eapply open_first|].
      intros r w1 (_ & Hc & Hx). apply returns_ret.
      by apply run_ops_cycling. }
    apply returns_Done in H as ([] & w' & Hrun & (_ & _ & _ & Hs' & _) & Hx).
    exists w'. split; [done|]. split; [done|].
    rewrite Hx. unfold handler_after. destruct ops as [|o ops]; [done|].
    rewrite last_cons_cons.
    by destruct (last (o :: ops)) as [[]|].
  - intros j.
    assert (returns (run_ops host self (replicate (S j) DoOpen)) w (fun _ w' =>
      cycling w' self t p c n m true (onscroll te) (scrollTop te) /\
      of_el onscroll w' t = Some (HLock self (scrollTop te)))) as H.
    { cbn [replicate]. unfold run_ops. cbn [for_each]. apply returns_bind.
      unfold run_op at 1. apply returns_bind.
      eapply returns_mono; [by eapply open_first|].
      intros r w1 (_ & Hc & Hx). apply returns_ret.
      by apply reopen_cycling. }
    apply returns_Done in H as ([] & w1 & Hrun & (Hb1 & Hm1 & Hd1 & Hs1 & Ht1) & Hx).
    apply of_obj_Some in Hm1 as (i1 & Hi1 & Hm1).
    pose proof Hd1 as Hd1'. pose proof Hs1 as Hs1'.
    apply of_obj_Some in Hd1' as (i' & Hi' & Hd1').
    apply of_obj_Some in Hs1' as (i'' & Hi'' & Hs1').
    assert (i' = i1) by congruence. assert (i'' = i1) by congruence. subst i' i''.
    apply of_el_Some in Ht1 as (te1 & Hte1 & Ht1).
    destruct (built_elim _ _ _ _ _ _ _ Hb1)
      as (_ & _ & _ & pe & _ & _ & _ & _ & (_ & _ & Hpe & _) & _).
    pose proof (close_returns 0 w1 self t p c n m i1 te1 pe Hb1 Hi1 Hte1 Hpe) as H.
    apply returns_Done in H as (r & w2 & Hclose & (_ & _ & Ho & _) & Hrest).
    rewrite Hd1', Hm1, Hs1' in *. cbn [truthy as_handler] in *.
    destruct Hrest as (-> & _).
    by exists w1, w2.
Qed.

Lemma scroll_lock_cycle_witness :
  exists w',
    run_ops (Demo.browser 100 50) 3 [DoOpen; DoOpen; DoClose; DoOpen; DoClose]
      (Demo.created (Demo.browser 100 50) None) = Done tt w' /\
    of_obj _scrollEvent w' 3 = Some (Val (HUser 50)) /\
    of_el onscroll w' 1 = Some (HUser 50).
Proof.
  pose proof (scroll_lock_cycle (Demo.browser 100 50)
                (Demo.created (Demo.browser 100 50) None) 3 1 4 5 6 7
                (HUser 50) 30) as H.
  specialize (H ltac:(vm_compute; reflexivity) ltac:(vm_compute; reflexivity) ltac:(vm_compute; reflexivity) ltac:(vm_compute; reflexivity) ltac:(vm_compute; reflexivity)).
  destruct H as (H & _).
  specialize (H ltac:(vm_compute; reflexivity) [DoOpen; DoClose; DoOpen; DoClose]).
  destruct H as (w' & Hrun & Hs & Ho).
  exists w'. split; [exact Hrun|]. split; [exact Hs|exact Ho].
Defined.




(** C8, as amended.  [destroy] on an instance that has its subtree clears
    the target's inline position, takes the wrapper out of the document, and
    sets the instance's target and wrapper references and its [disposable]
    and [mask] flags to [null]; the container, mask, inner and close element
    references keep their values. *)
Theorem destroy_clears w self t p c n m x :
  built w self t p c n m = true ->
  of_obj closeEl w self = Some x ->
  exists w',
    destroy self w = Done tt w' /\
    sty w' t "position" = Some (Kw "") /\
    of_el parentNode w' p = Some None /\
    (of_obj targetEl w' self = Some Null /\ of_obj popupEl w' self = Some Null /\
     of_obj disposable w' self = Some Null /\ of_obj mask w' self = Some Null) /\
    (of_obj containerEl w' self = Some (Val c) /\
     of_obj maskEl w' self = Some (Val m) /\
     of_obj innerEl w' self = Some (Val n) /\
     of_obj closeEl w' self = Some x).
Proof.
  intros Hb Hx.
  apply of_obj_Some in Hx as (i & Hi & Hx).
  destruct (built_elim _ _ _ _ _ _ _ Hb)
    as (_ & _ & te & pe & _ & _ & _ & _ & (_ & Hte & Hpe & _) & _).
  assert (truthy (isClosed i) = true \/ 1%nat <> 0%nat) as Hk by (by right).
  pose proof (destroy_returns 1 w self t p c n m i te pe Hb Hi Hte Hpe Hk) as H.
  apply returns_Done in H
    as ([] & w' & Hd & Hnull & Hkept & _ & (Hpos & Hpar & _) & _).
  exists w'. rewrite Hx in Hkept. by split.
Qed.

Lemma destroy_clears_witness :
  exists w',
    destroy 3 (Demo.opened (Demo.browser 100 50) None) = Done tt w' /\
    of_obj targetEl w' 3 = Some Null /\ of_el parentNode w' 4 = Some None.
Proof.
  pose proof (destroy_clears (Demo.opened (Demo.browser 100 50) None)
                3 1 4 5 6 7 (Val 8%nat)) as H.
  specialize (H ltac:(vm_compute; reflexivity) ltac:(vm_compute; reflexivity)).
  destruct H as (w' & H & _ & Hp & (Ht & _) & _).
  exists w'. split; [exact H|]. split; [exact Ht|exact Hp].
Defined.

(** C8 as stated fails: after [destroy] the container, mask, inner and close
    element references still point at their elements, and the container and
    the mask still carry the listeners bound at creation ([destroy] hands
    [removeEvent] function objects made on the spot, which were never
    registered). *)
Lemma destroy_keeps_references_and_listeners :
  let w := Demo.opened (Demo.browser 100 50) None in
  let w' := final (destroy 3 w) in
  destroy 3 w = Done tt w' /\
  (of_obj containerEl w' 3 = Some (Val 5%nat) /\
   of_obj maskEl w' 3 = Some (Val 7%nat) /\
   of_obj innerEl w' 3 = Some (Val 6%nat) /\
   of_obj closeEl w' 3 = Some (Val 8%nat)) /\
  (of_el listeners w' 5 = of_el listeners w 5 /\
   of_el listeners w' 7 = of_el listeners w 7 /\
   (length <$> of_el listeners w' 5) = Some 2%nat /\
   (length <$> of_el listeners w' 7) = Some 2%nat).
Proof. by_running. Qed.




(** C10.  The callback map is one object for all instances: once instance 3
    has registered function 70 as its [okCallback] through [alert], instance
    4, which registers nothing, finds function 70 under [okCallback] too; a
    click on the ok element of 4's alert (element 22) calls function 70 a
    second time. *)
Example callbacks_are_shared :
  let h := Demo.browser 100 50 in
  let w0 := final ((a ← Popup h None; b ← Popup h None; mret (a, b)) Demo.page) in
  let w1 := final (alert h 3 (ByPosition "a" (Some 70%nat) None) w0) in
  let w2 := final (_onContainer 3 11 w1) in
  let w3 := final (alert h 4 (ByPosition "b" None None) w2) in
  let w4 := final (_onContainer 4 22 w3) in
  (Popup h None ≫= fun a => Popup h None ≫= fun b => mret (a, b)) Demo.page
    = Done (3%nat, 4%nat) w0 /\
  (m ← _eventsList w0 4; m !! "okCallback") = None /\
  (m ← _eventsList w1 4; m !! "okCallback") = Some (Some 70%nat) /\
  calls w2 = [(70%nat, None)] /\
  alert h 4 (ByPosition "b" None None) w2 = Done 4%nat w3 /\
  of_el className w3 22 = Some "alert-ok popup-ok" /\
  calls w4 = [(70%nat, None); (70%nat, None)].
Proof. by_running. Qed.

(** ** Further properties of the code

    The rest of the file follows the code beyond the claims: the class and
    event helpers, the two click handlers, [create], [alert], [destroy] and
    what open/close sequences do to the target and to the timer queue. *)

(** *** Class names *)

(** [s] has no space character. *)
Fixpoint space_free (s : string) : bool :=
  match s with
  | EmptyString => true
  | String c s' => negb (is_space c) && space_free s'
  end.

(** [s] has space characters only. *)
Fixpoint all_space (s : string) : bool :=
  match s with
  | EmptyString => true
  | String c s' => is_space c && all_space s'
  end.

(** A plain name: not empty, no space character. *)
Definition plain (s : string) : Prop := s <> "" /\ space_free s = true.

Lemma append_String a p r : String a p +:+ r = String a (p +:+ r).
Proof. reflexivity. Qed.

Lemma append_nil_r s : s +:+ "" = s.
Proof. induction s as [|a s IH]; [done|]. by rewrite append_String, IH. Qed.

Lemma append_assoc s t u : (s +:+ t) +:+ u = s +:+ (t +:+ u).
Proof. induction s as [|a s IH]; [done|]. by rewrite !append_String, IH. Qed.

Lemma space_free_app s t :
  space_free (s +:+ t) = space_free s && space_free t.
Proof.
  induction s as [|a s IH]; [done|].
  rewrite append_String. cbn [space_free]. by rewrite IH, andb_assoc.
Qed.


Lemma strip_prefix_app_r p s r t :
  strip_prefix p s = Some r -> strip_prefix p (s +:+ t) = Some (r +:+ t).
Proof.
  revert s. induction p as [|a p IH]; intros s; cbn [strip_prefix].
  - by intros [= ->].
  - destruct s as [|b s]; [done|]. rewrite append_String.
    destruct (Ascii.eqb a b); [apply IH|done].
Qed.



(** A match that ends a word still ends one when text is appended after a
    space. *)
Lemma match_here_app_true cls s c t :
  is_space c = true ->
  match_here cls s = true -> match_here cls (s +:+ String c t) = true.
Proof.
  intros Hc. unfold match_here.
  destruct (strip_prefix cls s) as [r|] eqn:E; [|done].
  rewrite (strip_prefix_app_r _ _ _ _ E).
  destruct r as [|d r]; cbn [String.append]; [by intros _ | done].
Qed.



Lemma match_here_refl cls : match_here cls cls = true.
Proof.
  unfold match_here. pose proof (strip_prefix_app cls "") as H.
  rewrite append_nil_r in H. by rewrite H.
Qed.



Lemma scan_true_eq cls s : scan true cls s = match_here cls s || scan false cls s.
Proof. by destruct s. Qed.

(** *** [hasClass] and [addClass] *)

Lemma scan_app_self b cls s : scan b cls (s +:+ " " +:+ cls) = true.
Proof.
  revert b. induction s as [|a s IH]; intros b.
  - change ("" +:+ " " +:+ cls) with (String " " cls). cbn [scan].
    change (is_space " ") with true.
    rewrite (scan_true_eq cls cls), match_here_refl. cbn. apply orb_true_r.
  - rewrite append_String. cbn [scan]. rewrite IH. apply orb_true_r.
Qed.

Lemma scan_app_keeps b c s t :
  scan b c s = true -> scan b c (s +:+ String " " t) = true.
Proof.
  revert b. induction s as [|a s IH]; intros b; cbn [scan].
  - rewrite orb_false_r. intros [-> H]%andb_true_iff.
    change ("" +:+ String " " t) with (String " " t). cbn [scan].
    apply orb_true_iff. left.
    by apply (match_here_app_true c "" " " t).
  - rewrite append_String. cbn [scan].
    intros [[-> H]%andb_true_iff|H]%orb_true_iff.
    + apply orb_true_iff. left. cbn.
      by apply (match_here_app_true c (String a s) " " t).
    + apply orb_true_iff. right. by apply IH.
Qed.

Lemma with_elems_id w el e :
  elems w !! el = Some e -> with_elems (<[el := e]> (elems w)) w = w.
Proof. intros H. destruct w. unfold with_elems. cbn in *. by rewrite insert_id. Qed.

Lemma with_className_id e : with_className (className e) e = e.
Proof. by destruct e. Qed.



(** *** [removeClass] *)














(** *** The words of a string *)


Lemma tokens_lead sp s : all_space sp = true -> tokens "" (sp +:+ s) = tokens "" s.
Proof.
  induction sp as [|a sp IH]; [done|].
  cbn [all_space]. intros [Ha Hsp]%andb_true_iff.
  rewrite append_String. cbn [tokens]. rewrite Ha. by apply IH.
Qed.

Lemma tokens_trail sp : all_space sp = true -> tokens "" sp = [].
Proof.
  intros H. pose proof (tokens_lead sp "" H) as E.
  by rewrite append_nil_r in E.
Qed.


(** The words are plain names. *)
Lemma tokens_plain s : forall cur,
  space_free cur = true -> Forall plain (tokens cur s).
Proof.
  induction s as [|c s IH]; intros cur Hcur; cbn [tokens].
  - destruct cur; [constructor|]. by repeat constructor.
  - destruct (is_space c) eqn:Hc.
    + destruct cur; [by apply IH|].
      constructor; [by split | by apply IH].
    + apply IH. rewrite space_free_app, Hcur. cbn. by rewrite Hc.
Qed.




(** *** The event types of [eventHandler] *)




(** *** Listeners *)

(** What [eventHandler] does to the one element it is given, as a function
    of the element. *)
Definition handle (h : AddOrRemove) (fn : ref) (code : Code) (onCatch : bool)
    (e : Element) (ty : string) : Element :=
  let l := {| l_type := ty; l_fn := fn; l_code := code; l_capture := onCatch |} in
  match h with
  | add => addEventListener l e
  | remove => removeEventListener l e
  end.

Lemma for_each_handle el h fn code onCatch ts : forall w e,
  elems w !! el = Some e ->
  for_each ts (fun ty =>
    o ← deref (Val el);
    let l := {| l_type := ty; l_fn := fn; l_code := code; l_capture := onCatch |} in
    match h with
    | add => modEl o (addEventListener l)
    | remove => modEl o (removeEventListener l)
    end) w
  = Done tt (with_elems (<[el := foldl (handle h fn code onCatch) e ts]> (elems w)) w).
Proof.
  induction ts as [|ty ts IH]; intros w e He; cbn [for_each foldl].
  - by rewrite (with_elems_id w el e He).
  - unfold mbind at 1, M_bind at 1. unfold mbind at 1, M_bind at 1.
    cbn [deref]. unfold mret at 1, M_ret at 1.
    assert (forall f, modEl el f w = Done tt (with_elems (<[el := f e]> (elems w)) w)) as Hmod.
    { intros f. unfold modEl. by rewrite He. }
    assert (forall w1, elems w1 !! el = Some (handle h fn code onCatch e ty) ->
              w1 = with_elems (<[el := handle h fn code onCatch e ty]> (elems w)) w ->
              for_each ts (fun ty0 =>
                o ← deref (Val el);
                let l := {| l_type := ty0; l_fn := fn; l_code := code; l_capture := onCatch |} in
                match h with
                | add => modEl o (addEventListener l)
                | remove => modEl o (removeEventListener l)
                end) w1
              = Done tt (with_elems
                  (<[el := foldl (handle h fn code onCatch) (handle h fn code onCatch e ty) ts]>
                     (elems w)) w)) as Hrest.
    { intros w1 H1 ->. rewrite (IH _ _ H1). f_equal.
      destruct w. unfold with_elems. cbn. by rewrite insert_insert_eq. }
    destruct h; cbn zeta iota; rewrite Hmod; apply Hrest; try reflexivity;
      cbn [elems with_elems]; by rewrite lookup_insert_eq.
Qed.

Lemma eventHandler_run el types fn code onCatch h w e :
  elems w !! el = Some e ->
  eventHandler (Val el) types fn code onCatch h w
  = Done tt (with_elems
      (<[el := foldl (handle h fn code onCatch) e (typeArr types)]> (elems w)) w).
Proof. intros He. unfold eventHandler. by apply for_each_handle. Qed.

Lemma with_listeners_twice l l' e :
  with_listeners l (with_listeners l' e) = with_listeners l e.
Proof. by destruct e. Qed.

Lemma with_listeners_id e : with_listeners (listeners e) e = e.
Proof. by destruct e. Qed.

Lemma filter_other fn ty code cap L :
  Forall (fun l => l_fn l <> fn) L ->
  filter (fun x => same_listener
            {| l_type := ty; l_fn := fn; l_code := code; l_capture := cap |} x = false) L
  = L.
Proof.
  induction 1 as [|x L Hx _ IH]; [done|].
  rewrite filter_cons_True, IH; [done|].
  unfold same_listener. cbn.
  rewrite (bool_decide_eq_false_2 (fn = l_fn x)) by congruence.
  by rewrite andb_false_r.
Qed.

(** Adding for the types [ts] appends listeners of the function [fn], each
    for one of the types. *)
Lemma foldl_add fn code ts : forall e,
  exists A,
    foldl (handle add fn code false) e ts = with_listeners (listeners e ++ A) e /\
    Forall (fun l => l_fn l = fn /\ l_capture l = false /\ l_type l ∈ ts) A.
Proof.
  induction ts as [|ty ts IH]; intros e; cbn [foldl].
  - exists []. by rewrite app_nil_r, with_listeners_id.
  - destruct (IH (handle add fn code false e ty)) as (A & -> & HA).
    assert (Forall (fun l => l_fn l = fn /\ l_capture l = false /\ l_type l ∈ ty :: ts) A)
      as HA'.
    { eapply Forall_impl; [exact HA|]. intros l (? & ? & ?).
      repeat split; try done. by apply elem_of_cons; right. }
    unfold handle, addEventListener.
    destruct (existsb _ (listeners e)).
    + by exists A.
    + eexists (_ :: A). cbn [listeners with_listeners].
      rewrite with_listeners_twice, <- app_assoc. split; [reflexivity|].
      constructor; [|done]. cbn. repeat split. by apply elem_of_cons; left.
Qed.

(** Removing for the types [ts] takes these away again. *)
Lemma foldl_remove fn code ts : forall L A e,
  Forall (fun l => l_fn l <> fn) L ->
  Forall (fun l => l_fn l = fn /\ l_capture l = false /\ l_type l ∈ ts) A ->
  foldl (handle remove fn code false) (with_listeners (L ++ A) e) ts
  = with_listeners L e.
Proof.
  induction ts as [|ty ts IH]; intros L A e HL HA; cbn [foldl].
  - destruct A as [|x A]; [by rewrite app_nil_r|].
    apply Forall_cons in HA as [(_ & _ & H) _]. by apply elem_of_nil in H.
  - unfold handle at 2, removeEventListener. cbn [listeners with_listeners].
    rewrite with_listeners_twice, filter_app, filter_other by done.
    apply IH; [done|].
    apply Forall_forall. intros x [Hx Hin]%list_elem_of_filter.
    rewrite Forall_forall in HA. destruct (HA x Hin) as (Hf & Hc & Ht).
    repeat split; try done.
    apply elem_of_cons in Ht as [Ht|Ht]; [|done].
    unfold same_listener in Hx. cbn in Hx.
    rewrite Hf, Hc, Ht in Hx.
    by rewrite !bool_decide_eq_true_2 in Hx.
Qed.

(** X7. [removeEvent] with the function object that [addEvent] was given
    undoes it: on an element that has no listener of this function, the two
    calls, with the same types, give back the store of the start. *)
Theorem addEvent_removeEvent el types fn code w e :
  elems w !! el = Some e ->
  Forall (fun l => l_fn l <> fn) (listeners e) ->
  (addEvent (Val el) types fn code;; removeEvent (Val el) types fn code) w = Done tt w.
Proof.
  intros He HL. unfold addEvent, removeEvent, mbind, M_bind.
  rewrite (eventHandler_run el types fn code false add w e He).
  destruct (foldl_add fn code (typeArr types) e) as (A & -> & HA).
  erewrite eventHandler_run; [|cbn [elems with_elems]; by rewrite lookup_insert_eq].
  rewrite (foldl_remove fn code (typeArr types) (listeners e) A e HL HA).
  rewrite with_listeners_id. f_equal.
  destruct w. unfold with_elems. cbn in *.
  by rewrite insert_insert_eq, insert_id.
Qed.

Lemma addEvent_removeEvent_witness :
  (addEvent (Val 2%nat) "click touchstart" 9 (OnMaskFn 3);;
   removeEvent (Val 2%nat) "click touchstart" 9 (OnMaskFn 3)) Demo.page
  = Done tt Demo.page.
Proof.
  apply (addEvent_removeEvent 2 "click touchstart" 9 (OnMaskFn 3) Demo.page Demo.test_el);
    [reflexivity | constructor].
Defined.

(** X8. [removeEvent] with a function object that is not registered on the
    element changes nothing. *)
Theorem removeEvent_unregistered el types fn code w e :
  elems w !! el = Some e ->
  Forall (fun l => l_fn l <> fn) (listeners e) ->
  removeEvent (Val el) types fn code w = Done tt w.
Proof.
  intros He HL. unfold removeEvent.
  rewrite (eventHandler_run el types fn code false remove w e He).
  pose proof (foldl_remove fn code (typeArr types) (listeners e) [] e HL) as H.
  rewrite app_nil_r, with_listeners_id in H. rewrite H by constructor.
  by rewrite (with_elems_id w el e He).
Qed.

Lemma removeEvent_unregistered_witness :
  let w := Demo.opened (Demo.browser 100 50) None in
  removeEvent (Val 5%nat) "click touchstart" 99 (OnContainerFn 3) w = Done tt w.
Proof.
  cbv zeta.
  pose proof (removeEvent_unregistered 5 "click touchstart" 99 (OnContainerFn 3)
                (Demo.opened (Demo.browser 100 50) None)) as H.
  specialize (H _ ltac:(vm_compute; reflexivity)).
  apply H. repeat constructor; discriminate.
Defined.

(** X9. With no word in [types], the callback is registered once, for the
    event type that is the empty string. *)
Theorem addEvent_blank el types fn code w e :
  all_space types = true ->
  elems w !! el = Some e ->
  Forall (fun l => l_fn l <> fn) (listeners e) ->
  exists w',
    addEvent (Val el) types fn code w = Done tt w' /\
    of_el listeners w' el =
      Some (listeners e ++
            [{| l_type := ""; l_fn := fn; l_code := code; l_capture := false |}])%list.
Proof.
  intros Hsp He HL. unfold addEvent.
  rewrite (eventHandler_run el types fn code false add w e He).
  eexists. split; [reflexivity|].
  unfold of_el. cbn [elems with_elems]. rewrite lookup_insert_eq. cbn.
  unfold typeArr. rewrite (tokens_trail types Hsp). cbn [foldl].
  unfold handle, addEventListener.
  assert (existsb (same_listener
            {| l_type := ""; l_fn := fn; l_code := code; l_capture := false |})
            (listeners e) = false) as ->; [|done].
  apply not_true_is_false. intros (x & Hin & Hx)%existsb_exists.
  rewrite Forall_forall in HL.
  apply (HL x); [by apply list_elem_of_In|].
  unfold same_listener in Hx. cbn in Hx.
  apply andb_true_iff in Hx as [[_ Hx]%andb_true_iff _].
  by apply bool_decide_eq_true in Hx.
Qed.

Lemma addEvent_blank_witness :
  exists w',
    addEvent (Val 2%nat) "  " 9 (OnMaskFn 3) Demo.page = Done tt w' /\
    of_el listeners w' 2 =
      Some [{| l_type := ""; l_fn := 9%nat; l_code := OnMaskFn 3; l_capture := false |}].
Proof.
  apply (addEvent_blank 2 "  " 9 (OnMaskFn 3) Demo.page Demo.test_el);
    [reflexivity | reflexivity | constructor].
Defined.

(** X10. [addEvent] and [removeEvent] on [null] or [undefined] throw a
    [TypeError], whatever the types, and change nothing. *)
Theorem eventHandler_no_element els types fn code onCatch h w :
  (els = Null \/ els = Undefined) ->
  eventHandler els types fn code onCatch h w = Thrown TypeError w.
Proof.
  intros Hels. unfold eventHandler, typeArr.
  destruct (tokens "" types) as [|ty ts]; cbn [for_each];
    unfold mbind, M_bind; by destruct Hels as [-> | ->].
Qed.

Lemma eventHandler_no_element_witness :
  eventHandler Null "click touchstart" 9 (OnMaskFn 3) false add Demo.page
  = Thrown TypeError Demo.page.
Proof. apply eventHandler_no_element. by left. Defined.

(** *** Clicks *)

(** The invocation of the callback [o] without argument, if there is one. *)
Definition called (o : option ref) : list (ref * option string) :=
  match o with Some f => [(f, None)] | None => [] end.

Lemma call_event_run k w :
  exists w',
    call_event k None w = Done tt w' /\
    calls w' = (calls w ++ called (get_event w k))%list /\
    elems w' = elems w /\ objs w' = objs w /\ eventsList w' = eventsList w.
Proof.
  unfold call_event, mbind, M_bind, get_world.
  destruct (get_event w k) as [f|]; eexists; (split; [reflexivity|]); cbn.
  - done.
  - by rewrite app_nil_r.
Qed.


Lemma get_event_ext w w' k : eventsList w' = eventsList w -> get_event w' k = get_event w k.
Proof. unfold get_event. by intros ->. Qed.

(** What [close] leaves of the store on a built instance. *)
Lemma close_effects k w self t p c n m :
  built w self t p c n m = true ->
  returns (close_fuel (S (S k)) self) w (fun _ w' =>
    of_obj isClosed w' self = Some (Val true) /\
    sty w' p "display" = Some (Kw "none") /\
    calls w' = calls w /\ eventsList w' = eventsList w).
Proof.
  intros H. use_built H. clear H.
  destruct w as [el ob ev nr tm cl ae gt]. cbn [elems objs] in *.
  cbn [close_fuel destroy_fuel].
  repeat step.
  all: use_tests; conj_split; observe; reflexivity.
Qed.









(** *** [destroy] and the listeners *)

(** The listeners of the container and of the mask after [destroy]: what
    [removeEvent] leaves of them, for the two function objects made on the
    spot. *)
Lemma destroy_listeners k w self t p c n m i ce me :
  built w self t p c n m = true ->
  objs w !! self = Some i -> elems w !! c = Some ce -> elems w !! m = Some me ->
  truthy (isClosed i) = true \/ k <> 0%nat ->
  returns (destroy_fuel (S k) self) w (fun _ w' =>
    of_el listeners w' c =
      Some (listeners (foldl (handle remove (next_ref w) (OnContainerFn self) false) ce
                         ["click"; "touchstart"])) /\
    of_el listeners w' m =
      Some (if truthy (mask i)
            then listeners (foldl (handle remove (S (next_ref w)) (OnMaskFn self) false) me
                              ["click"; "touchstart"])
            else listeners me)).
Proof.
  intros H Hi Hce Hme Hk.
  destruct (built_elim _ _ _ _ _ _ _ H)
    as (i0 & he & te & pe & ce0 & ne & me0
        & (Hobj & Htarget & Hpopup & Hcontainer & Hinner & HmaskEl)
        & (Ehtml & Et & Ep & Ec & En & Em & Hparent)
        & (? & ? & ? & ? & ? & ? & ? & ? & ? & ?) & (? & ? & ? & ?)).
  assert (i0 = i) by congruence. assert (ce0 = ce) by congruence.
  assert (me0 = me) by congruence. subst i0 ce0 me0. clear H Hi Hce Hme.
  destruct i
    as [i_target i_disposable i_mask i_closeOnMask i_popup i_container i_maskEl
              i_autoSize i_scrollEvent i_prefixClass i_delay i_isClosed i_inner
              i_closeEl].
  cbn [targetEl disposable mask closeOnMask popupEl containerEl maskEl
       autoSize _scrollEvent prefixClass delayCalculate isClosed innerEl
       closeEl] in *; subst.
  destruct w as [el ob ev nr tm cl ae gt]. cbn [elems objs next_ref] in *.
  destruct (truthy i_isClosed) eqn:Hclosed.
  - cbn [destroy_fuel].
    repeat step.
    all: use_tests; split; observe; reflexivity.
  - destruct Hk as [|Hk]; [discriminate|].
    destruct k as [|k]; [done|]. cbn [destroy_fuel close_fuel].
    repeat step.
    all: use_tests; split; observe; reflexivity.
Qed.

Lemma listeners_remove_fresh fn code e ts :
  Forall (fun l => l_fn l <> fn) (listeners e) ->
  listeners (foldl (handle remove fn code false) e ts) = listeners e.
Proof.
  intros HL.
  pose proof (foldl_remove fn code ts (listeners e) [] e HL) as H.
  rewrite app_nil_r, with_listeners_id in H. by rewrite H by constructor.
Qed.

(** X13. [destroy] detaches nothing: in a store where the function objects
    registered on the container and on the mask were made before (their
    identities are below the next one to be given out), the listeners of both
    elements are the same after [destroy]. *)
Theorem destroy_keeps_listeners w self t p c n m ce me :
  built w self t p c n m = true ->
  elems w !! c = Some ce -> elems w !! m = Some me ->
  Forall (fun l => (l_fn l < next_ref w)%nat) (listeners ce ++ listeners me) ->
  exists w',
    destroy self w = Done tt w' /\
    of_el listeners w' c = Some (listeners ce) /\
    of_el listeners w' m = Some (listeners me).
Proof.
  intros Hb Hce Hme Hfresh.
  apply Forall_app in Hfresh as [Hc Hm].
  destruct (built_elim _ _ _ _ _ _ _ Hb) as (i & _ & _ & _ & _ & _ & _ & (Hi & _) & _).
  assert (truthy (isClosed i) = true \/ 1%nat <> 0%nat) as Hk by (by right).
  pose proof (destroy_listeners 1 w self t p c n m i ce me Hb Hi Hce Hme Hk) as H.
  apply returns_Done in H as ([] & w' & E & Hlc & Hlm).
  exists w'. split; [exact E|]. split.
  - rewrite Hlc, listeners_remove_fresh; [done|].
    eapply Forall_impl; [exact Hc|]. cbn. lia.
  - rewrite Hlm. destruct (truthy (mask i)); [|done].
    rewrite listeners_remove_fresh; [done|].
    eapply Forall_impl; [exact Hm|]. cbn. lia.
Qed.

Lemma destroy_keeps_listeners_witness :
  exists w',
    destroy 3 (Demo.opened (Demo.browser 100 50) None) = Done tt w' /\
    (length <$> of_el listeners w' 5) = Some 2%nat.
Proof.
  epose proof (destroy_keeps_listeners (Demo.opened (Demo.browser 100 50) None)
                3 1 4 5 6 7 _ _) as H.
  specialize (H ltac:(vm_compute; reflexivity) ltac:(vm_compute; reflexivity)
                ltac:(vm_compute; reflexivity)
                ltac:(vm_compute; repeat constructor)).
  destruct H as (w' & E & Hc & _).
  exists w'. split; [exact E|]. by rewrite Hc.
Defined.

(** *** A destroyed instance *)

(** What [destroy] leaves of an instance. *)
Definition destroyed (w : World) (self : ref) : Prop :=
  exists i c n,
    objs w !! self = Some i /\
    targetEl i = Null /\ popupEl i = Null /\ mask i = Null /\
    truthy (isClosed i) = true /\
    containerEl i = Val c /\ innerEl i = Val n /\
    is_Some (elems w !! c) /\ is_Some (elems w !! n).

Lemma destroy_destroyed w self t p c n m :
  built w self t p c n m = true ->
  exists w', destroy self w = Done tt w' /\ destroyed w' self.
Proof.
  intros Hb.
  destruct (built_elim _ _ _ _ _ _ _ Hb)
    as (i & _ & te & pe & _ & _ & _ & (Hi & _) & (_ & Hte & Hpe & _) & _).
  assert (truthy (isClosed i) = true \/ 1%nat <> 0%nat) as Hk by (by right).
  pose proof (destroy_returns 1 w self t p c n m i te pe Hb Hi Hte Hpe Hk) as H.
  apply returns_Done in H
    as ([] & w' & E & (Ht & Hp & _ & Hm) & (Hc & _ & Hn & _) & Hcl & _ & _ & (Hsn & Hsc) & _).
  exists w'. split; [exact E|].
  apply of_obj_Some in Ht as (i' & Hi' & Ht).
  unfold of_obj in *. rewrite Hi' in *. cbn in *.
  exists i', c, n. repeat split; try done; try congruence.
  injection Hcl as Hcl. rewrite Hcl. by destruct (truthy (isClosed i)) eqn:E'.
Qed.

(** A step of a run that ends in the [TypeError] of reading a property of
    [null]. *)
Ltac tstep :=
  wsimpl;
  lazymatch goal with
  | |- throws (deref Null ≫= _) _ _ => apply throws_bind_l; reflexivity
  | _ => rstep
  end.

Lemma open_destroyed host w self :
  destroyed w self -> open host self w = Thrown TypeError w.
Proof.
  intros (i & c & n & Hi & Ht & _). unfold open, mbind, M_bind, this.
  by rewrite Hi, Ht.
Qed.

Lemma close_destroyed w self :
  destroyed w self -> throws (close self) w (fun e _ => e = TypeError).
Proof.
  intros (i & c & n & Hi & Ht & Hp & Hm & _).
  destruct i as [i_target i_disposable i_mask i_closeOnMask i_popup i_container i_maskEl
                 i_autoSize i_scrollEvent i_prefixClass i_delay i_isClosed i_inner
                 i_closeEl].
  cbn [targetEl popupEl mask] in *. subst.
  destruct w as [el ob ev nr tm cl ae gt]. cbn [objs] in *.
  unfold close. cbn [close_fuel].
  repeat tstep.
Qed.

Lemma destroy_again w self :
  destroyed w self -> throws (destroy self) w (fun e _ => e = TypeError).
Proof.
  intros (i & c & n & Hi & Ht & Hp & Hm & Hcl & Hc & Hn & [ce Hce] & _).
  destruct i as [i_target i_disposable i_mask i_closeOnMask i_popup i_container i_maskEl
                 i_autoSize i_scrollEvent i_prefixClass i_delay i_isClosed i_inner
                 i_closeEl].
  cbn [targetEl popupEl mask isClosed containerEl innerEl] in *. subst.
  destruct w as [el ob ev nr tm cl ae gt]. cbn [objs elems] in *.
  unfold destroy. cbn [destroy_fuel].
  unfold removeEvent, eventHandler. rewrite typeArr_click_touchstart. cbn [for_each].
  do 2 rstep. wsimpl. rewrite Hcl. cbn [negb].
  repeat tstep.
Qed.

Lemma refresh_destroyed host w self :
  destroyed w self -> throws (refresh host self) w (fun e _ => e = TypeError).
Proof.
  intros (i & c & n & Hi & Ht & Hp & Hm & Hcl & Hc & Hn & _ & Hsn).
  unfold refresh. apply throws_bind_l.
  pose proof (calculateSize_destroyed host w self i n Hi Ht Hn Hsn) as H.
  unfold throws in *. destruct (_calculateSize host self w); [done|]. by destruct H.
Qed.

(** Building the subtree of an instance without target: the five elements
    are made, then reading the target's style throws. *)
Lemma createDOM_no_target host w self content :
  of_obj targetEl w self = Some Null ->
  throws (_createDOM host self content) w (fun e _ => e = TypeError).
Proof.
  intros (i & Hi & Ht)%of_obj_Some.
  destruct i as [i_target i_disposable i_mask i_closeOnMask i_popup i_container i_maskEl
                 i_autoSize i_scrollEvent i_prefixClass i_delay i_isClosed i_inner
                 i_closeEl].
  cbn [targetEl] in *. subst.
  destruct w as [el ob ev nr tm cl ae gt]. cbn [objs] in *.
  unfold _createDOM, createElement.
  repeat tstep.
Qed.

(** What the presets do with their arguments leaves the target alone. *)
Lemma preset_args_no_target self w (pre : M unit) v :
  (exists args,
     pre = register_two self args \/
     pre = match args with
           | ByObject p => preset_options self p;; set_event "okCallback" (okCallback p)
           | ByPosition _ (Some f) _ => set_event "okCallback" (Some f)
           | ByPosition _ None _ => mret tt
           end) ->
  of_obj targetEl w self = Some Null ->
  returns (pre;; modThis self (with_prefixClass v)) w (fun _ w' =>
    of_obj targetEl w' self = Some Null).
Proof.
  intros (args & Hpre) (i & Hi & Ht)%of_obj_Some.
  destruct i as [i_target i_disposable i_mask i_closeOnMask i_popup i_container i_maskEl
                 i_autoSize i_scrollEvent i_prefixClass i_delay i_isClosed i_inner
                 i_closeEl].
  cbn [targetEl] in *. subst i_target.
  destruct w as [el ob ev nr tm cl ae gt]. cbn [objs] in *.
  destruct Hpre as [-> | ->]; destruct args as [q|tx [f|] g];
    unfold register_two, preset_options, set_event;
    repeat rstep; observe; reflexivity.
Qed.

(** The presets on an instance without target. *)
Lemma presets_no_target host w self :
  of_obj targetEl w self = Some Null ->
  (forall args, throws (alert host self args) w (fun e _ => e = TypeError)) /\
  (forall args, throws (confirm host self args) w (fun e _ => e = TypeError)) /\
  (forall args, throws (prompt host self args) w (fun e _ => e = TypeError)).
Proof.
  intros Ht.
  assert (forall (pre : M unit) v content {A} (rest : M A),
            returns (pre;; modThis self (with_prefixClass v)) w (fun _ w' =>
              of_obj targetEl w' self = Some Null) ->
            throws (pre;; modThis self (with_prefixClass v);;
                    _createDOM host self content;; rest) w (fun e _ => e = TypeError))
    as Hgo.
  { intros pre v content A rest H. unfold returns in H. unfold throws.
    unfold mbind, M_bind in *.
    destruct (pre w) as [[] w1|]; [|done].
    destruct (modThis self (with_prefixClass v) w1) as [[] w2|]; [|done].
    pose proof (createDOM_no_target host w2 self content H) as Hc.
    unfold throws in Hc. by destruct (_createDOM host self content w2). }
  split; [|split]; intros args.
  - unfold alert. apply Hgo. apply preset_args_no_target; [|done].
    exists args. by right.
  - unfold confirm. apply Hgo. apply preset_args_no_target; [|done].
    exists args. by left.
  - unfold prompt. apply Hgo. apply preset_args_no_target; [|done].
    exists args. by left.
Qed.

(** X14. After [destroy] the instance cannot be used: [open] throws a
    [TypeError] and changes nothing, and [close], [destroy], [refresh] and
    the three presets throw a [TypeError] as well. *)
Theorem destroyed_instance_unusable host w self t p c n m :
  built w self t p c n m = true ->
  exists w',
    destroy self w = Done tt w' /\
    open host self w' = Thrown TypeError w' /\
    throws (close self) w' (fun e _ => e = TypeError) /\
    throws (destroy self) w' (fun e _ => e = TypeError) /\
    throws (refresh host self) w' (fun e _ => e = TypeError) /\
    (forall args, throws (alert host self args) w' (fun e _ => e = TypeError)) /\
    (forall args, throws (confirm host self args) w' (fun e _ => e = TypeError)) /\
    (forall args, throws (prompt host self args) w' (fun e _ => e = TypeError)).
Proof.
  intros Hb. destruct (destroy_destroyed w self t p c n m Hb) as (w' & E & Hd).
  exists w'. split; [exact E|].
  split; [by apply open_destroyed|].
  split; [by apply close_destroyed|].
  split; [by apply destroy_again|].
  split; [by apply refresh_destroyed|].
  apply presets_no_target. destruct Hd as (i & c0 & n0 & Hi & Ht & _).
  unfold of_obj. by rewrite Hi, <- Ht.
Qed.

Lemma destroyed_instance_unusable_witness :
  exists w',
    destroy 3 (Demo.opened (Demo.browser 100 50) None) = Done tt w' /\
    open (Demo.browser 100 50) 3 w' = Thrown TypeError w'.
Proof.
  pose proof (destroyed_instance_unusable (Demo.browser 100 50)
                (Demo.opened (Demo.browser 100 50) None) 3 1 4 5 6 7) as H.
  specialize (H ltac:(vm_compute; reflexivity)).
  destruct H as (w' & E & Ho & _).
  exists w'. split; [exact E|exact Ho].
Defined.

(** *** [close] before the first [open] *)

(** A mask-bearing instance that was never opened and has been closed: the
    target's scroll handler is [null], and nothing is saved. *)
Definition closed_unopened (w : World) (self t p c n m : ref) (top : Z) : Prop :=
  built w self t p c n m = true /\
  of_obj mask w self = Some (Val true) /\
  of_obj disposable w self = Some (Val false) /\
  of_obj _scrollEvent w self = Some Undefined /\
  of_el scrollTop w t = Some top.

Lemma close_unopened w self t p c n m top :
  closed_unopened w self t p c n m top ->
  returns (close self) w (fun _ w' =>
    closed_unopened w' self t p c n m top /\ of_el onscroll w' t = Some HNull).
Proof.
  intros (Hb & Hm & Hd & Hs & Ht).
  apply of_obj_Some in Hm as (i & Hi & Hm).
  apply of_obj_Some in Hd as (i' & Hi' & Hd).
  apply of_obj_Some in Hs as (i'' & Hi'' & Hs).
  apply of_el_Some in Ht as (te & Hte & Ht).
  assert (i' = i) by congruence. assert (i'' = i) by congruence. subst i' i''.
  destruct (built_elim _ _ _ _ _ _ _ Hb)
    as (_ & _ & _ & pe & _ & _ & _ & _ & (_ & _ & Hpe & _) & _).
  eapply returns_mono; [by eapply (close_returns 0)|].
  intros r w' ((_ & _ & Ho & Ht' & _) & Hrest).
  rewrite Hd, Hm, Hs in *. cbn [truthy as_handler] in *.
  destruct Hrest as (_ & Hb' & Hs' & Hd' & Hm' & _).
  unfold closed_unopened. by rewrite Hb', Hs', Hd', Hm', Ho, Ht', Ht.
Qed.

Lemma run_ops_unopened host self t p c n m top ops : forall w,
  closed_unopened w self t p c n m top ->
  of_el onscroll w t = Some HNull ->
  returns (run_ops host self ops) w (fun _ w' =>
    of_el onscroll w' t = Some (handler_after self HNull top HNull ops)).
Proof.
  induction ops as [|o ops IH]; intros w Hc Hx.
  - by apply returns_ret.
  - unfold run_ops. cbn [for_each]. apply returns_bind.
    rewrite handler_after_cons.
    destruct o; unfold run_op; apply returns_bind.
    + destruct Hc as (Hb & Hm & Hd & Hs & Ht).
      apply of_obj_Some in Hm as (i & Hi & Hm).
      apply of_obj_Some in Hd as (i' & Hi' & Hd).
      apply of_obj_Some in Hs as (i'' & Hi'' & Hs).
      apply of_el_Some in Ht as (te & Hte & Ht).
      apply of_el_Some in Hx as (te' & Hte' & Hx).
      assert (i' = i) by congruence. assert (i'' = i) by congruence.
      assert (te' = te) by congruence. subst i' i'' te'.
      eapply returns_mono; [by eapply (open_first host w self t p c n m i te false)|].
      intros r w1 (_ & Hc1 & Hx1). apply returns_ret.
      rewrite Hx, Ht in *.
      eapply returns_mono; [by eapply run_ops_cycling|].
      by intros _ w2 (_ & ?).
    + eapply returns_mono; [by apply close_unopened|].
      intros _ w1 (Hc1 & Hx1). apply returns_ret. by apply IH.
Qed.

(** X15. [close] on a mask-bearing instance that was never opened puts [null]
    in the target's scroll handler slot, and the handler the page had set is
    not seen again: whatever calls of [open] and [close] follow, the slot
    holds the lock handler after an [open] and [null] after a [close]. *)
Theorem close_before_open_loses_handler host w self t p c n m h0 top :
  built w self t p c n m = true ->
  of_obj mask w self = Some (Val true) ->
  of_obj disposable w self = Some (Val false) ->
  of_obj _scrollEvent w self = Some Undefined ->
  of_el onscroll w t = Some h0 -> of_el scrollTop w t = Some top ->
  forall ops, exists w',
    run_ops host self (DoClose :: ops) w = Done tt w' /\
    of_el onscroll w' t =
      Some (match last ops with
            | Some DoOpen => HLock self top
            | _ => HNull
            end).
Proof.
  intros Hb Hm Hd Hs Ho Ht ops.
  assert (returns (run_ops host self (DoClose :: ops)) w (fun _ w' =>
    of_el onscroll w' t = Some (handler_after self HNull top HNull ops))) as H.
  { unfold run_ops. cbn [for_each]. apply returns_bind.
    unfold run_op at 1. apply returns_bind.
    eapply returns_mono; [by apply (close_unopened w self t p c n m top)|].
    intros r w1 (Hc & Hx). apply returns_ret.
    by apply (run_ops_unopened host self t p c n m top). }
  apply returns_Done in H as ([] & w' & Hrun & Hx).
  exists w'. split; [done|]. rewrite Hx. unfold handler_after.
  by destruct (last ops) as [[]|].
Qed.

Lemma close_before_open_loses_handler_witness :
  exists w',
    run_ops (Demo.browser 100 50) 3 [DoClose; DoOpen; DoClose]
      (Demo.created (Demo.browser 100 50) None) = Done tt w' /\
    of_el onscroll w' 1 = Some HNull.
Proof.
  pose proof (close_before_open_loses_handler (Demo.browser 100 50)
                (Demo.created (Demo.browser 100 50) None) 3 1 4 5 6 7
                (HUser 50) 30) as H.
  specialize (H ltac:(vm_compute; reflexivity) ltac:(vm_compute; reflexivity)
                ltac:(vm_compute; reflexivity) ltac:(vm_compute; reflexivity)
                ltac:(vm_compute; reflexivity) ltac:(vm_compute; reflexivity)
                [DoOpen; DoClose]).
  destruct H as (w' & Hrun & Ho).
  exists w'. split; [exact Hrun|exact Ho].
Defined.

(** *** Deferred size adaptations pile up *)

(** The number of [open] calls among [ops]. *)
Fixpoint opens (ops : list Op) : nat :=
  match ops with
  | [] => 0
  | DoOpen :: r => S (opens r)
  | DoClose :: r => opens r
  end.

(** An instance made by [create] with a delay. *)
Definition delayed (w : World) (self t p c n m : ref) (d : Z) : Prop :=
  built w self t p c n m = true /\
  of_obj autoSize w self = Some true /\
  of_obj delayCalculate w self = Some (Val d) /\
  of_obj disposable w self = Some (Val false).

Lemma run_ops_delayed host self t p c n m d ops : forall w,
  delayed w self t p c n m d ->
  returns (run_ops host self ops) w (fun _ w' =>
    timers w' = (timers w ++ replicate (opens ops) (d, self))%list).
Proof.
  induction ops as [|o ops IH]; intros w (Hb & Ha & Hd & Hdisp).
  - apply returns_ret. cbn. by rewrite app_nil_r.
  - apply of_obj_Some in Ha as (i & Hi & Ha).
    apply of_obj_Some in Hd as (i' & Hi' & Hd).
    apply of_obj_Some in Hdisp as (i'' & Hi'' & Hdisp).
    assert (i' = i) by congruence. assert (i'' = i) by congruence. subst i' i''.
    destruct (built_elim _ _ _ _ _ _ _ Hb)
      as (_ & _ & te & pe & _ & _ & _ & _ & (_ & Hte & Hpe & _) & _).
    unfold run_ops. cbn [for_each]. apply returns_bind.
    destruct o; unfold run_op; apply returns_bind.
    + eapply returns_mono; [by eapply open_returns|].
      intros r w1 (_ & Hb1 & (_ & _ & Hd1 & _ & Ha1 & Hdl1) & _ & (_ & Htm) & _).
      apply returns_ret.
      eapply returns_mono; [apply IH|].
      * unfold delayed. by rewrite Hb1, Hd1, Ha1, Hdl1, Ha, Hd, ?Hdisp.
      * intros _ w2 ->. rewrite Htm, Ha, Hd. cbn [opens replicate].
        by rewrite <- app_assoc.
    + eapply returns_mono; [by eapply (close_returns 0)|].
      intros r w1 ((_ & _ & _ & _ & Htm & _) & Hrest).
      rewrite Hdisp in Hrest. cbn [truthy] in Hrest.
      destruct Hrest as (_ & Hb1 & _ & Hd1 & _ & Ha1 & Hdl1).
      apply returns_ret.
      eapply returns_mono; [apply IH|].
      * unfold delayed. by rewrite Hb1, Hd1, Ha1, Hdl1, Ha, Hd, ?Hdisp.
      * intros _ w2 ->. by rewrite Htm.
Qed.

(** X16. With a delay set, every [open] queues one more deferred size
    adaptation and [close] cancels none: after any calls of [open] and
    [close] on an instance made by [create], the queue has grown by one timer
    for each [open]. *)
Theorem opens_queue_timers host w self t p c n m d :
  built w self t p c n m = true ->
  of_obj autoSize w self = Some true ->
  of_obj delayCalculate w self = Some (Val d) ->
  of_obj disposable w self = Some (Val false) ->
  forall ops, exists w',
    run_ops host self ops w = Done tt w' /\
    timers w' = (timers w ++ replicate (opens ops) (d, self))%list.
Proof.
  intros Hb Ha Hd Hdisp ops.
  pose proof (run_ops_delayed host self t p c n m d ops w) as H.
  apply returns_Done in H as ([] & w' & Hrun & Htm); [|done].
  by exists w'.
Qed.

Lemma opens_queue_timers_witness :
  exists w',
    run_ops (Demo.browser 100 50) 3 [DoOpen; DoClose; DoOpen]
      (Demo.created (Demo.browser 100 50) (Some 200)) = Done tt w' /\
    timers w' = [(200, 3%nat); (200, 3%nat)].
Proof.
  pose proof (opens_queue_timers (Demo.browser 100 50)
                (Demo.created (Demo.browser 100 50) (Some 200)) 3 1 4 5 6 7 200) as H.
  specialize (H ltac:(vm_compute; reflexivity) ltac:(vm_compute; reflexivity)
                ltac:(vm_compute; reflexivity) ltac:(vm_compute; reflexivity)
                [DoOpen; DoClose; DoOpen]).
  destruct H as (w' & Hrun & Htm).
  exists w'. split; [exact Hrun|exact Htm].
Defined.

(** *** Where size adaptation puts the popup *)



(** *** Two popups on one target *)

Section Frame.

Variable w0 : World.
Variable other : ref.

(** The Popup object [other] is as in [w0], and every element has the parent
    it has in [w0]. *)
Definition framed (w : World) : Prop :=
  objs w !! other = objs w0 !! other /\
  forall e, parentNode <$> elems w !! e = parentNode <$> elems w0 !! e.

Lemma framed_modEl e f :
  (forall x, parentNode (f x) = parentNode x) -> keeps framed (modEl e f).
Proof.
  intros Hf w [Ho He]. unfold modEl.
  destruct (elems w !! e) as [x|] eqn:E; [|done].
  split; [done|]. intros e'. cbn [final elems with_elems].
  destruct (decide (e = e')) as [<-|].
  - rewrite lookup_insert_eq, <- He, E. cbn. by rewrite Hf.
  - by rewrite lookup_insert_ne.
Qed.

Lemma framed_modThis self f : self <> other -> keeps framed (modThis self f).
Proof.
  intros Hne w [Ho He]. unfold modThis.
  destruct (objs w !! self) as [i|]; [|done].
  split; [|done]. cbn [final objs with_objs]. by rewrite lookup_insert_ne.
Qed.

Lemma framed_update f :
  (forall w, objs (f w) = objs w /\ elems (f w) = elems w) -> keeps framed (update f).
Proof.
  intros Hf w [Ho He]. destruct (Hf w) as [E1 E2].
  split; cbn [final update]; by rewrite ?E1, ?E2.
Qed.

End Frame.

(** A step of a run of the instance [self] that leaves the other instances
    and the tree alone. *)
Ltac fstep :=
  lazymatch goal with
  | |- keeps _ (_ ≫= _) => apply keeps_bind; [ | intros ? ]
  | |- keeps _ (mret _) => apply keeps_ret
  | |- keeps _ (throw _) => apply keeps_throw
  | |- keeps _ (deref _) => apply keeps_deref
  | |- keeps _ get_world => apply keeps_get_world
  | |- keeps _ (getEl _) => apply keeps_getEl
  | |- keeps _ (this _) => apply keeps_this
  | |- keeps _ (modEl _ _) => apply framed_modEl; intros ?; reflexivity
  | |- keeps _ (modThis _ _) => apply framed_modThis; assumption
  | |- keeps _ (update _) => apply framed_update; intros ?; split; reflexivity
  | |- keeps _ (if ?b then _ else _) => destruct b
  | |- keeps _ (match ?x with _ => _ end) => destruct x
  end.

Lemma framed_calculateSize host w0 other self :
  self <> other -> keeps (framed w0 other) (_calculateSize host self).
Proof. intros Hne. unfold _calculateSize. repeat fstep. Qed.

Lemma framed_open host w0 other self :
  self <> other -> keeps (framed w0 other) (open host self).
Proof.
  intros Hne. unfold open, setTimeout.
  repeat fstep; by apply framed_calculateSize.
Qed.

Lemma framed_close w0 other self :
  self <> other -> keeps (framed w0 other) (close_fuel 1 self).
Proof. intros Hne. cbn [close_fuel destroy_fuel]. repeat fstep. Qed.

Lemma framed_refl w other : framed w other w.
Proof. by split. Qed.

Lemma framed_of_obj {A} (f : Instance -> A) w0 other w :
  framed w0 other w -> of_obj f w other = of_obj f w0 other.
Proof. intros [Ho _]. unfold of_obj. by rewrite Ho. Qed.

Lemma framed_built w0 w self t p c n m :
  framed w0 self w ->
  built w0 self t p c n m = true -> built w self t p c n m = true.
Proof.
  intros [Ho He] H.
  destruct (built_elim _ _ _ _ _ _ _ H)
    as (i & he & te & pe & ce & ne & me
        & (Hobj & Htarget & Hpopup & Hcontainer & Hinner & HmaskEl)
        & (Ehtml & Et & Ep & Ec & En & Em & Hparent) & Hd & Hr).
  assert (forall e x, elems w0 !! e = Some x ->
            exists x', elems w !! e = Some x' /\ parentNode x' = parentNode x) as Hsome.
  { intros e x Hx. specialize (He e). rewrite Hx in He.
    destruct (elems w !! e) as [x'|]; [|done]. exists x'. split; [done|].
    cbn in He. congruence. }
  destruct (Hsome _ _ Ep) as (pe' & Ep' & Hpar').
  destruct (Hsome _ _ Ehtml) as (? & ? & _). destruct (Hsome _ _ Et) as (? & ? & _).
  destruct (Hsome _ _ Ec) as (? & ? & _). destruct (Hsome _ _ En) as (? & ? & _).
  destruct (Hsome _ _ Em) as (? & ? & _).
  eapply (built_intro w self t p c n m i pe'); try done; try by eexists.
  - by rewrite Ho.
  - by rewrite Hpar'.
Qed.

(** The first [open] of a mask-bearing instance, with what it leaves alone. *)
Lemma open_masked host w self t p c n m h0 top other :
  self <> other ->
  built w self t p c n m = true ->
  of_obj mask w self = Some (Val true) ->
  of_obj disposable w self = Some (Val false) ->
  of_obj _scrollEvent w self = Some Undefined ->
  of_el onscroll w t = Some h0 -> of_el scrollTop w t = Some top ->
  exists w1,
    open host self w = Done self w1 /\
    cycling w1 self t p c n m false h0 top /\
    of_el onscroll w1 t = Some (HLock self top) /\
    of_obj isClosed w1 self = Some (Val false) /\
    framed w other w1.
Proof.
  intros Hne Hb Hm Hd Hs Ho Ht.
  apply of_obj_Some in Hm as (i & Hi & Hm).
  apply of_obj_Some in Hd as (i' & Hi' & Hd).
  apply of_obj_Some in Hs as (i'' & Hi'' & Hs).
  apply of_el_Some in Ho as (te & Hte & Ho).
  apply of_el_Some in Ht as (te' & Hte' & Ht).
  assert (i' = i) by congruence. assert (i'' = i) by congruence.
  assert (te' = te) by congruence. subst i' i'' te'.
  pose proof (open_returns host w self t p c n m i te Hb Hi Hte) as H.
  apply returns_Done in H
    as (r & w1 & E & -> & Hb1 & (Hc1 & Hs1 & Hd1 & Hm1 & _) & (Ho1 & Ht1) & _).
  rewrite Hm, Hs, Ho, Ht, ?Hd in *. cbn [truthy] in *.
  exists w1. split; [exact E|]. split; [by unfold cycling|].
  split; [done|]. split; [done|].
  pose proof (framed_open host w other self Hne w (framed_refl w other)) as Hf.
  by rewrite E in Hf.
Qed.

(** A [close] of a mask-bearing instance made by [create], with what it
    leaves alone. *)
Lemma close_masked w self t p c n m h0 top other :
  self <> other ->
  cycling w self t p c n m false h0 top ->
  exists w1,
    close self w = Done (ReturnedThis self) w1 /\
    of_el onscroll w1 t = Some h0 /\
    of_el scrollTop w1 t = Some top /\
    framed w other w1.
Proof.
  intros Hne (Hb & Hm & Hd & Hs & Ht).
  apply of_obj_Some in Hm as (i & Hi & Hm).
  apply of_obj_Some in Hd as (i' & Hi' & Hd).
  apply of_obj_Some in Hs as (i'' & Hi'' & Hs).
  apply of_el_Some in Ht as (te & Hte & Ht).
  assert (i' = i) by congruence. assert (i'' = i) by congruence. subst i' i''.
  destruct (built_elim _ _ _ _ _ _ _ Hb)
    as (_ & _ & _ & pe & _ & _ & _ & _ & (_ & _ & Hpe & _) & _).
  pose proof (close_returns 0 w self t p c n m i te pe Hb Hi Hte Hpe) as H.
  apply returns_Done in H as (r & w1 & E & (_ & _ & Ho1 & Ht1 & _) & Hrest).
  rewrite Hd, Hm, Hs, ?Ht in *. cbn [truthy as_handler] in *.
  destruct Hrest as (-> & _).
  exists w1. split; [exact E|]. split; [done|]. split; [done|].
  pose proof (framed_close w other self Hne w (framed_refl w other)) as Hf.
  unfold close in E. rewrite (close_fuel_kept 1 self w) in E.
  - by rewrite E in Hf.
  - intros i0 Hi0. assert (i0 = i) by congruence. subst i0. by rewrite Hd.
Qed.

(** X18. Two mask-bearing popups made by [create] on one target, opened one
    after the other and closed in the same order.  The second saves the lock
    handler of the first as if it were the page's; the [close] of the first
    gives the page its handler back while the second is still open; the
    [close] of the second then puts the lock handler of the first in the
    slot, where it stays though both popups are closed. *)
Theorem shared_target_leaves_lock host w a b t pa ca na ma pb cb nb mb h0 top :
  a <> b ->
  built w a t pa ca na ma = true -> built w b t pb cb nb mb = true ->
  of_obj mask w a = Some (Val true) -> of_obj mask w b = Some (Val true) ->
  of_obj disposable w a = Some (Val false) ->
  of_obj disposable w b = Some (Val false) ->
  of_obj _scrollEvent w a = Some Undefined ->
  of_obj _scrollEvent w b = Some Undefined ->
  of_el onscroll w t = Some h0 -> of_el scrollTop w t = Some top ->
  exists w1 w2 w3 w4,
    open host a w = Done a w1 /\ open host b w1 = Done b w2 /\
    close a w2 = Done (ReturnedThis a) w3 /\
    close b w3 = Done (ReturnedThis b) w4 /\
    of_obj _scrollEvent w2 b = Some (Val (HLock a top)) /\
    (of_el onscroll w3 t = Some h0 /\ of_obj isClosed w3 b = Some (Val false)) /\
    of_el onscroll w4 t = Some (HLock a top).
Proof.
  intros Hab Hba Hbb Hma Hmb Hda Hdb Hsa Hsb Ho Ht.
  assert (b <> a) as Hba' by congruence.
  destruct (open_masked host w a t pa ca na ma h0 top b) as (w1 & E1 & Hc1 & Ho1 & _ & Hf1);
    try done.
  pose proof Hc1 as (_ & _ & _ & _ & Ht1).
  destruct (open_masked host w1 b t pb cb nb mb (HLock a top) top a)
    as (w2 & E2 & Hc2 & Ho2 & Hcl2 & Hf2); try done;
    rewrite ?(framed_of_obj _ w b w1 Hf1); try done.
  { by apply (framed_built w). }
  pose proof Hc2 as (_ & _ & _ & Hs2 & Ht2).
  assert (cycling w2 a t pa ca na ma false h0 top) as Hc2a.
  { destruct Hc1 as (Hb1 & Hm1 & Hd1 & Hs1 & _). unfold cycling.
    rewrite !(framed_of_obj _ w1 a w2 Hf2).
    split; [by apply (framed_built w1)|]. done. }
  destruct (close_masked w2 a t pa ca na ma h0 top b Hab Hc2a) as (w3 & E3 & Ho3 & Ht3 & Hf3).
  assert (cycling w3 b t pb cb nb mb false (HLock a top) top) as Hc3b.
  { destruct Hc2 as (Hb2 & Hm2 & Hd2 & Hs2' & _). unfold cycling.
    rewrite !(framed_of_obj _ w2 b w3 Hf3).
    split; [by apply (framed_built w2)|]. done. }
  destruct (close_masked w3 b t pb cb nb mb (HLock a top) top a Hba' Hc3b)
    as (w4 & E4 & Ho4 & _ & _).
  exists w1, w2, w3, w4. repeat split; try done.
  by rewrite (framed_of_obj _ w2 b w3 Hf3).
Qed.

(** Two popups made by [create] on the body of the page: the instances are
    objects 3 and 11, their wrappers, containers, inner and mask elements
    4, 5, 6, 7 and 12, 13, 14, 15. *)
Definition two_popups (h : Host) : World :=
  final ((a ← Popup h None; create h a (Demo.options None);;
          b ← Popup h None; create h b (Demo.options None)) Demo.page).

Lemma shared_target_leaves_lock_witness :
  exists w1 w2 w3 w4,
    open (Demo.browser 100 50) 3 (two_popups (Demo.browser 100 50)) = Done 3%nat w1 /\
    open (Demo.browser 100 50) 11 w1 = Done 11%nat w2 /\
    close 3 w2 = Done (ReturnedThis 3) w3 /\
    close 11 w3 = Done (ReturnedThis 11) w4 /\
    of_el onscroll w3 1 = Some (HUser 50) /\
    of_el onscroll w4 1 = Some (HLock 3 30).
Proof.
  pose proof (shared_target_leaves_lock (Demo.browser 100 50)
                (two_popups (Demo.browser 100 50)) 3 11 1 4 5 6 7 12 13 14 15
                (HUser 50) 30) as H.
  specialize (H ltac:(discriminate)
                ltac:(vm_compute; reflexivity) ltac:(vm_compute; reflexivity)
                ltac:(vm_compute; reflexivity) ltac:(vm_compute; reflexivity)
                ltac:(vm_compute; reflexivity) ltac:(vm_compute; reflexivity)
                ltac:(vm_compute; reflexivity) ltac:(vm_compute; reflexivity)
                ltac:(vm_compute; reflexivity) ltac:(vm_compute; reflexivity)).
  destruct H as (w1 & w2 & w3 & w4 & E1 & E2 & E3 & E4 & _ & (Ho3 & _) & Ho4).
  exists w1, w2, w3, w4. repeat split; assumption.
Defined.

(** *** Building the subtree *)

Lemma match_here_cons a p c s :
  match_here (String a p) (String c s) = Ascii.eqb a c && match_here p s.
Proof. unfold match_here. cbn [strip_prefix]. by destruct (Ascii.eqb a c). Qed.

(** A compound class [u cls], matched as a whole, has [cls] as a word. *)
Lemma match_here_compound u cls : forall s b,
  match_here (u +:+ " " +:+ cls) s = true -> scan b cls s = true.
Proof.
  induction u as [|a u IH]; intros s b.
  - change ("" +:+ " " +:+ cls) with (String " " cls).
    destruct s as [|c s]; [done|]. rewrite match_here_cons.
    intros [E H]%andb_true_iff. apply Ascii.eqb_eq in E as <-.
    cbn [scan]. change (is_space " ") with true.
    rewrite scan_true_eq, H. cbn. apply orb_true_r.
  - rewrite append_String.
    destruct s as [|c s]; [done|]. rewrite match_here_cons.
    intros [_ H]%andb_true_iff.
    cbn [scan]. rewrite (IH s (is_space c) H). apply orb_true_r.
Qed.

Lemma scan_mono b cls s : scan false cls s = true -> scan b cls s = true.
Proof. destruct b; [|done]. rewrite scan_true_eq. intros ->. apply orb_true_r. Qed.

Lemma scan_compound u cls : forall s b,
  scan b (u +:+ " " +:+ cls) s = true -> scan false cls s = true.
Proof.
  induction s as [|c s IH]; intros b; cbn [scan].
  - rewrite orb_false_r. intros [_ H]%andb_true_iff.
    by apply (match_here_compound u cls "" false) in H.
  - intros [[_ H]%andb_true_iff|H]%orb_true_iff.
    + apply (match_here_compound u cls _ false) in H. exact H.
    + cbn. apply scan_mono. by apply (IH (is_space c)).
Qed.

(** [addClass] as a change of the store: the element gets a class name [cn]
    that has the class and every class it had. *)
Lemma addClass_returns el cls w e :
  elems w !! el = Some e ->
  returns (addClass el cls) w (fun _ w' =>
    exists cn,
      w' = with_elems (<[el := with_className cn e]> (elems w)) w /\
      scan true cls cn = true /\
      (forall c b, scan b c (className e) = true -> scan b c cn = true)).
Proof.
  intros He. unfold returns, addClass, mbind, M_bind, getEl. rewrite He.
  destruct (hasClass e cls) eqn:Hhas.
  - exists (className e). rewrite with_className_id, (with_elems_id w el e He).
    by repeat split.
  - unfold modEl. rewrite He. eexists. split; [reflexivity|]. split.
    + apply scan_app_self.
    + intros c b. apply scan_app_keeps.
Qed.

(** [_addPrefixClass(ele, cls)] leaves [ele] with the class [cls], whatever
    the prefix. *)
Lemma addPrefixClass_returns self el cls w i e :
  objs w !! self = Some i -> elems w !! el = Some e ->
  returns (_addPrefixClass self el cls) w (fun _ w' =>
    exists cn,
      w' = with_elems (<[el := with_className cn e]> (elems w)) w /\
      scan true cls cn = true /\
      (forall c b, scan b c (className e) = true -> scan b c cn = true)).
Proof.
  intros Hi He. unfold _addPrefixClass.
  apply returns_bind. eapply returns_this; [exact Hi|].
  eapply returns_mono; [by apply addClass_returns|].
  intros [] w' (cn & -> & Hcn & Hkeep). exists cn. split; [done|]. split; [|done].
  destruct (prefixClass i) as [| |pre]; try done.
  destruct (truthy_str (Val pre)); [|done].
  apply scan_mono.
  apply (scan_compound (pre +:+ cls) cls cn true).
  by rewrite append_assoc.
Qed.

Lemma with_children_twice l l' e :
  with_children l (with_children l' e) = with_children l e.
Proof. by destruct e. Qed.

(** Every element of the store was made before: its identity is below the
    next one to be given out. *)
Definition fresh_store (w : World) : Prop :=
  forall e, is_Some (elems w !! e) -> (e < next_ref w)%nat.

Lemma fresh_store_check w :
  forallb (fun kv => (kv.1 <? next_ref w)%nat) (map_to_list (elems w)) = true ->
  fresh_store w.
Proof.
  intros H e [x Hx]. apply elem_of_map_to_list in Hx.
  rewrite forallb_forall in H. apply list_elem_of_In in Hx.
  specialize (H _ Hx). by apply Nat.ltb_lt in H.
Qed.

(** The elements parsed from the markup are new ones: [set_innerHTML] leaves
    the other elements as they are. *)
Lemma innerHTML_nodes el (l : list Element) : forall w x,
  elems w !! el = Some x -> fresh_store w ->
  returns (for_each l (fun y =>
    r ← fresh;
    update (fun w => with_elems (<[r := with_parentNode (Some el) y]> (elems w)) w);;
    modEl el (fun e => with_children (children e ++ [r]) e))) w (fun _ w' =>
    (objs w' = objs w /\ eventsList w' = eventsList w /\ timers w' = timers w /\
     calls w' = calls w /\ activeElement w' = activeElement w /\
     global_txt w' = global_txt w) /\
    (next_ref w <= next_ref w')%nat /\
    (forall e, (e < next_ref w)%nat -> e <> el -> elems w' !! e = elems w !! e) /\
    fresh_store w' /\
    exists ch, elems w' !! el = Some (with_children ch x)).
Proof.
  induction l as [|y l IH]; intros w x Hx Hfresh; cbn [for_each].
  - apply returns_ret. repeat split; try done.
    exists (children x). by destruct x.
  - assert (el < next_ref w)%nat as Hlt by (apply Hfresh; eauto).
    apply returns_bind. apply returns_bind. apply returns_fresh.
    apply returns_bind. apply returns_update.
    eapply returns_modEl.
    { cbn [elems with_elems with_next_ref]. rewrite lookup_insert_ne by lia. exact Hx. }
    cbn beta. eapply returns_mono.
    { eapply IH.
      - cbn [elems with_elems with_next_ref]. apply lookup_insert_eq.
      - intros e. cbn [elems with_elems with_next_ref next_ref].
        rewrite !lookup_insert_is_Some'. intros [->|[->|He]]; [lia|lia|].
        apply Hfresh in He. lia. }
    cbn [elems objs eventsList timers calls activeElement global_txt next_ref
         with_elems with_next_ref].
    intros [] w' (Hframe & Hnr & Hsame & Hfresh' & ch & Hel).
    split; [done|]. split; [lia|]. split; [|split; [done|]].
    + intros e He Hne. rewrite Hsame by (lia || done).
      by rewrite !lookup_insert_ne by lia.
    + exists ch. by rewrite Hel, with_children_twice.
Qed.

Lemma set_innerHTML_returns host el markup w x :
  elems w !! el = Some x -> fresh_store w ->
  returns (set_innerHTML host el markup) w (fun _ w' =>
    (objs w' = objs w /\ eventsList w' = eventsList w /\ timers w' = timers w /\
     calls w' = calls w /\ activeElement w' = activeElement w /\
     global_txt w' = global_txt w) /\
    (next_ref w <= next_ref w')%nat /\
    (forall e, (e < next_ref w)%nat -> e <> el -> elems w' !! e = elems w !! e) /\
    fresh_store w' /\
    exists ch, elems w' !! el = Some (with_children ch (with_innerHTML markup x))).
Proof.
  intros Hx Hfresh. unfold set_innerHTML.
  apply returns_bind. eapply returns_modEl; [exact Hx|].
  eapply returns_mono.
  { eapply (innerHTML_nodes el).
    - cbn [elems with_elems]. apply lookup_insert_eq.
    - intros e. cbn [elems with_elems next_ref].
      rewrite lookup_insert_is_Some'. intros [->|He]; apply Hfresh; eauto. }
  cbn [elems objs eventsList timers calls activeElement global_txt next_ref with_elems].
  intros [] w' (Hframe & Hnr & Hsame & Hfresh' & ch & Hel).
  split; [done|]. split; [done|]. split; [|split; [done|by exists ch]].
  intros e He Hne. rewrite Hsame by done. by rewrite lookup_insert_ne.
Qed.

(** Steps of a run over a store whose new identities are [next_ref],
    [S next_ref], ...: the keys are told apart by arithmetic. *)
Ltac lookup_simpl_l :=
  repeat first [ rewrite lookup_insert_eq | rewrite lookup_insert_ne by lia ].

Ltac lookup_solve_l := wsimpl; lookup_simpl_l; first [ eassumption | reflexivity ].

Ltac rstep_l :=
  wsimpl; rewrite ?insert_insert_eq;
  lazymatch goal with
  | |- returns (_ ≫= _) _ _ => apply returns_bind
  | |- returns (mret _) _ _ => apply returns_ret
  | |- returns (modEl _ _) _ _ => eapply returns_modEl; [ lookup_solve_l | ]
  | |- returns (getEl _) _ _ => eapply returns_getEl; [ lookup_solve_l | ]
  | |- returns (this _) _ _ => eapply returns_this; [ lookup_solve_l | ]
  | |- returns (modThis _ _) _ _ => eapply returns_modThis; [ lookup_solve_l | ]
  | |- returns (deref (Val _)) _ _ => apply returns_deref
  | |- returns (update _) _ _ => apply returns_update
  | |- returns fresh _ _ => apply returns_fresh
  | |- returns (_addPrefixClass _ _ _) _ _ =>
      eapply returns_mono;
      [ eapply addPrefixClass_returns; lookup_solve_l
      | intros [] ? (?cn & -> & ?Hcn & ?Hkeep) ]
  | |- returns (addClass _ _) _ _ =>
      eapply returns_mono;
      [ eapply addClass_returns; lookup_solve_l
      | intros [] ? (?cn & -> & ?Hcn & ?Hkeep) ]
  | |- returns (match parentNode _ with _ => _ end) _ _ =>
      unfold new_element; esimpl
  end.

(** The conditional [addClass] of [_createDOM]. *)
Lemma addClass_if {P : Prop} (d : {P} + {~ P}) el cls w e :
  elems w !! el = Some e ->
  returns (if d then addClass el cls else mret tt) w (fun _ w' =>
    exists cn,
      w' = with_elems (<[el := with_className cn e]> (elems w)) w /\
      (P -> scan true cls cn = true) /\
      (forall c b, scan b c (className e) = true -> scan b c cn = true)).
Proof.
  intros He. destruct d as [HP|HP].
  - eapply returns_mono; [by apply addClass_returns|].
    intros [] w' (cn & -> & Hcn & Hkeep). exists cn. by repeat split.
  - apply returns_ret. exists (className e).
    rewrite with_className_id, (with_elems_id w el e He). by repeat split.
Qed.

(** The store after [_createDOM], [p], [c], [n], [m], [x] being the wrapper,
    the container, the inner, the mask and the close element. *)
Definition dom_built (w w' : World) (self : ref) (i : Instance) (t : ref) (te : Element)
    (content : string) : Prop :=
  let p : ref := next_ref w in
  let c : ref := S p in let n : ref := S c in let m : ref := S n in
  let x : ref := S m in
  built w' self t p c n m = true /\
  objs w' = <[self := with_closeEl (Val x) (with_maskEl (Val m) (with_innerEl (Val n)
               (with_containerEl (Val c) (with_popupEl (Val p) i))))]> (objs w) /\
  (eventsList w' = eventsList w /\ timers w' = timers w /\ calls w' = calls w) /\
  fresh_store w' /\
  (sty w' p "display" = Some (Kw "none") /\
   sty w' t "position" = Some (Kw "relative") /\
   of_el children w' t = Some (children te ++ [p])%list /\
   of_el innerHTML w' n = Some content /\
   of_el onscroll w' t = Some (onscroll te) /\
   of_el scrollTop w' t = Some (scrollTop te)) /\
  (exists xe ce me,
     (elems w' !! x = Some xe /\ hasClass xe "popup-close" = true /\
      parentNode xe = Some c) /\
     (elems w' !! c = Some ce /\ hasClass ce "popup-container" = true /\
      parentNode ce = Some p /\ listeners ce = []) /\
     (elems w' !! m = Some me /\ listeners me = [] /\
      (truthy (mask i) = true ->
       hasClass me "popup-mask" = true /\ parentNode me = Some p)) /\
     of_el parentNode w' n = Some (Some c)).

Ltac some_l :=
  wsimpl; rewrite ?lookup_insert_is_Some';
  repeat first [ left; lia | right ]; by eauto.

Ltac observe_l :=
  unfold sty, of_el; wsimpl; lookup_simpl_l;
  cbn [mbind option_bind fmap option_fmap option_map]; esimpl; lookup_simpl;
  reflexivity.

Ltac lookup_in H :=
  repeat first [ rewrite lookup_insert_eq in H | rewrite lookup_insert_ne in H by lia ].

Lemma createDOM_builds host w self i t te content :
  objs w !! self = Some i -> targetEl i = Val t -> elems w !! t = Some te ->
  is_Some (elems w !! documentElement) -> fresh_store w ->
  returns (_createDOM host self content) w (fun _ w' =>
    dom_built w w' self i t te content).
Proof.
  intros Hi Ht Hte [he Hhe] Hfresh.
  assert (t < next_ref w)%nat as Htlt by (apply Hfresh; eauto).
  assert (documentElement < next_ref w)%nat as Hdlt by (apply Hfresh; eauto).
  destruct i as [i_target i_disposable i_mask i_closeOnMask i_popup i_container i_maskEl
                 i_autoSize i_scrollEvent i_prefixClass i_delay i_isClosed i_inner
                 i_closeEl].
  cbn [targetEl] in *. subst i_target.
  destruct w as [el ob ev nr tm cl ae gt]. cbn [elems objs next_ref] in *.
  unfold dom_built. cbn [elems objs next_ref mask].
  unfold _createDOM, createElement, appendChild.
  repeat rstep_l.
  eapply returns_mono; [eapply addClass_if; lookup_solve_l|].
  intros [] ? (cn' & -> & Hcn' & Hkeep').
  repeat rstep_l.
  destruct (truthy i_mask) eqn:Hmask; repeat rstep_l.
  all: (eapply returns_mono;
    [ eapply set_innerHTML_returns;
      [ lookup_solve_l
      | intros e; wsimpl; rewrite !lookup_insert_is_Some';
        intros H; destruct_or?; destruct_and?; subst; try lia;
        match goal with H : is_Some (_ !! _) |- _ => apply Hfresh in H; cbn in H; lia end ]
    | ]).
  all: intros [] w' (Hframe & Hnr & Hsame & Hfresh' & ch & Hel).
  all: destruct w' as [el' ob' ev' nr' tm' cl' ae' gt'].
  all: cbn [elems objs eventsList next_ref timers calls activeElement global_txt] in *.
  all: destruct Hframe as (-> & -> & -> & -> & -> & ->).
  all: pose proof (Hsame nr ltac:(lia) ltac:(lia)) as Ep; lookup_in Ep.
  all: pose proof (Hsame (S nr) ltac:(lia) ltac:(lia)) as Ec; lookup_in Ec.
  all: pose proof (Hsame (S (S (S nr))) ltac:(lia) ltac:(lia)) as Em; lookup_in Em.
  all: pose proof (Hsame (S (S (S (S nr)))) ltac:(lia) ltac:(lia)) as Ex; lookup_in Ex.
  all: pose proof (Hsame t ltac:(lia) ltac:(lia)) as Et; lookup_in Et.
  all: assert (is_Some (el' !! documentElement)) as Ehtml
         by (pose proof (Hsame documentElement ltac:(lia)
                           ltac:(unfold documentElement in *; lia)) as E0;
             refine (eq_ind_r is_Some _ E0);
             rewrite !lookup_insert_is_Some'; repeat right; eauto).
  all: clear Hsame.
  all: repeat rstep_l.
  all: wsimpl.
  all: split;
    [ eapply built_intro;
      [ lookup_solve_l | reflexivity | reflexivity | reflexivity | reflexivity
      | reflexivity | repeat split; lia
      | unfold documentElement in *; repeat split; lia
      | some_l | some_l | lookup_solve_l | reflexivity | some_l | some_l | some_l ]
    | ].
  all: split; [reflexivity|].
  all: split; [by repeat split|].
  all: split;
    [ intros e; wsimpl; rewrite !lookup_insert_is_Some';
      intros H; destruct_or?; subst; try lia;
      match goal with H : is_Some (_ !! _) |- _ => apply Hfresh' in H; cbn in H; lia end
    | ].
  all: split; [repeat split; observe_l|].
  all: do 3 eexists.
  all: split; [split; [lookup_solve_l|split; [unfold hasClass; esimpl; assumption|reflexivity]]|].
  all: split; [split; [lookup_solve_l|split; [unfold hasClass; esimpl; assumption|split; reflexivity]]|].
  all: split; [split; [lookup_solve_l|split; [reflexivity|]]|].
  all: try (intros _; split; [unfold hasClass; esimpl; assumption|reflexivity]).
  all: try discriminate.
  all: observe_l.
Qed.

(** The two listeners [addEvent(el, 'click touchstart', fn)] registers. *)
Definition click_touch (fn : ref) (code : Code) : list Listener :=
  [ {| l_type := "click"; l_fn := fn; l_code := code; l_capture := false |};
    {| l_type := "touchstart"; l_fn := fn; l_code := code; l_capture := false |} ].

Lemma addEventListener_two fn code e :
  listeners e = [] ->
  addEventListener {| l_type := "touchstart"; l_fn := fn; l_code := code; l_capture := false |}
    (addEventListener {| l_type := "click"; l_fn := fn; l_code := code; l_capture := false |} e)
  = with_listeners (click_touch fn code) e.
Proof.
  intros H. unfold addEventListener. rewrite H. cbn [existsb listeners with_listeners app].
  unfold same_listener. cbn [l_type l_fn l_capture].
  rewrite (bool_decide_eq_false_2 ("touchstart" = "click")) by discriminate.
  cbn [andb orb]. by rewrite with_listeners_twice.
Qed.

(** What [_bindEvents] does on an instance whose container and mask element
    have no listener yet. *)
Lemma bindEvents_returns w self i c m ce me :
  objs w !! self = Some i -> containerEl i = Val c -> maskEl i = Val m ->
  elems w !! c = Some ce -> elems w !! m = Some me -> c <> m ->
  listeners ce = [] -> listeners me = [] ->
  returns (_bindEvents self) w (fun _ w' =>
    (objs w' = objs w /\ eventsList w' = eventsList w /\ timers w' = timers w /\
     calls w' = calls w) /\
    (next_ref w < next_ref w')%nat /\
    (forall e, e <> c -> e <> m -> elems w' !! e = elems w !! e) /\
    elems w' !! c = Some (with_listeners (click_touch (next_ref w) (OnContainerFn self)) ce) /\
    elems w' !! m =
      Some (if truthy (mask i)
            then with_listeners (click_touch (S (next_ref w)) (OnMaskFn self)) me
            else me)).
Proof.
  intros Hi Hc Hm Hce Hme Hne Hlc Hlm.
  destruct i as [i_target i_disposable i_mask i_closeOnMask i_popup i_container i_maskEl
                 i_autoSize i_scrollEvent i_prefixClass i_delay i_isClosed i_inner
                 i_closeEl].
  cbn [containerEl maskEl mask] in *. subst.
  destruct w as [el ob ev nr tm cl ae gt]. cbn [elems objs next_ref] in *.
  unfold _bindEvents, addEvent, eventHandler. rewrite typeArr_click_touchstart.
  cbn [for_each].
  repeat rstep.
  all: wsimpl; rewrite ?insert_insert_eq.
  all: rewrite ?addEventListener_two by done.
  all: split; [done|]. all: split; [lia|].
  all: split; [intros e ? ?; by rewrite !lookup_insert_ne by done|].
  all: use_tests; split; lookup_simpl; first [reflexivity | assumption].
Qed.

(** The store after [_createDOM] and [_bindEvents]. *)
Definition dom_bound (w w' : World) (self : ref) (i : Instance) (t : ref) (te : Element)
    (content : string) : Prop :=
  let p : ref := next_ref w in
  let c : ref := S p in let n : ref := S c in let m : ref := S n in
  let x : ref := S m in
  built w' self t p c n m = true /\
  objs w' = <[self := with_closeEl (Val x) (with_maskEl (Val m) (with_innerEl (Val n)
               (with_containerEl (Val c) (with_popupEl (Val p) i))))]> (objs w) /\
  (eventsList w' = eventsList w /\ timers w' = timers w /\ calls w' = calls w) /\
  (sty w' p "display" = Some (Kw "none") /\
   sty w' t "position" = Some (Kw "relative") /\
   of_el children w' t = Some (children te ++ [p])%list /\
   of_el innerHTML w' n = Some content /\
   of_el onscroll w' t = Some (onscroll te) /\
   of_el scrollTop w' t = Some (scrollTop te)) /\
  (exists xe,
     elems w' !! x = Some xe /\ hasClass xe "popup-close" = true /\
     parentNode xe = Some c) /\
  (exists f,
     (f < next_ref w')%nat /\
     of_el listeners w' c = Some (click_touch f (OnContainerFn self)) /\
     of_el listeners w' m =
       Some (if truthy (mask i) then click_touch (S f) (OnMaskFn self) else [])).

Lemma createDOM_bindEvents host w self i t te content :
  objs w !! self = Some i -> targetEl i = Val t -> elems w !! t = Some te ->
  is_Some (elems w !! documentElement) -> fresh_store w ->
  returns (_createDOM host self content) w (fun _ w1 =>
    returns (_bindEvents self) w1 (fun _ w' =>
      dom_bound w w' self i t te content)).
Proof.
  intros Hi Ht Hte Hdoc Hfresh.
  assert (t < next_ref w)%nat as Htlt by (apply Hfresh; eauto).
  eapply returns_mono; [by eapply createDOM_builds|].
  intros [] w1 (Hb & Hobjs & Hframe & Hfresh1
                & (Hdisp & Hpos & Hch & Hhtml & Hons & Htop)
                & xe & ce & me & (Hx & Hxc & Hxp) & (Hc & Hcc & Hcp & Hcl)
                & (Hm & Hml & Hmm) & Hn).
  eapply returns_mono.
  { eapply (bindEvents_returns w1 self _ (S (next_ref w)) (S (S (S (next_ref w)))) ce me).
    - rewrite Hobjs. apply lookup_insert_eq.
    - reflexivity.
    - reflexivity.
    - exact Hc.
    - exact Hm.
    - lia.
    - exact Hcl.
    - exact Hml. }
  cbn [mask containerEl maskEl with_closeEl with_maskEl with_innerEl with_containerEl
       with_popupEl].
  intros [] w2 ((Ho2 & Hev2 & Htm2 & Hcl2) & Hnr2 & Hsame & Hc2 & Hm2).
  assert (forall e, parentNode <$> elems w2 !! e = parentNode <$> elems w1 !! e) as Hpar.
  { intros e. destruct (decide (e = S (next_ref w))) as [->|Hec].
    { by rewrite Hc2, Hc. }
    destruct (decide (e = S (S (S (next_ref w))))) as [->|Hem].
    { rewrite Hm2, Hm. by destruct (truthy (mask i)). }
    by rewrite Hsame. }
  unfold dom_bound. split.
  { apply (framed_built w1); [|done]. split; [by rewrite Ho2|done]. }
  split; [by rewrite Ho2|].
  split; [by rewrite Hev2, Htm2, Hcl2|].
  split.
  { unfold sty, of_el in *. rewrite !Hsame by lia. done. }
  split.
  { exists xe. by rewrite Hsame by lia. }
  exists (next_ref w1). split; [done|].
  unfold of_el. rewrite Hc2, Hm2. split; [done|].
  destruct (truthy (mask i)); [done|]. cbn. by rewrite Hml.
Qed.




(** *** The life of an alert *)

(** The mask flag and the [okCallback] slot after [alert] has read its
    arguments. *)
Definition alert_mask (args : Args) (old : slot bool) : slot bool :=
  match args with
  | ByObject p => Val (undefined_or true (p_mask p))
  | ByPosition _ _ _ => old
  end.

Definition alert_ok (args : Args) (old : option ref) : option ref :=
  match args with
  | ByObject p => okCallback p
  | ByPosition _ (Some f) _ => Some f
  | ByPosition _ None _ => old
  end.

Lemma alert_returns host w self i t te args :
  fresh_store w ->
  objs w !! self = Some i -> targetEl i = Val t ->
  elems w !! t = Some te -> is_Some (elems w !! documentElement) ->
  returns (alert host self args) w (fun r w' =>
    r = self /\
    let p : ref := next_ref w in
    let c : ref := S p in let n : ref := S c in let m : ref := S n in
    built w' self t p c n m = true /\
    (of_obj isClosed w' self = Some (Val false) /\
     of_obj disposable w' self = Some (disposable i) /\
     of_obj mask w' self = Some (alert_mask args (mask i)) /\
     of_obj _scrollEvent w' self =
       Some (if truthy (alert_mask args (mask i)) then
               match _scrollEvent i with
               | Undefined => Val (onscroll te)
               | s => s
               end
             else _scrollEvent i)) /\
    (of_el onscroll w' t =
       Some (if truthy (alert_mask args (mask i))
             then HLock self (scrollTop te) else onscroll te) /\
     of_el scrollTop w' t = Some (scrollTop te)) /\
    get_event w' "okCallback" = alert_ok args (get_event w "okCallback")).
Proof.
  intros Hfresh Hi Ht Hte Hdoc.
  destruct i as [i_target i_disposable i_mask i_closeOnMask i_popup i_container i_maskEl
                 i_autoSize i_scrollEvent i_prefixClass i_delay i_isClosed i_inner
                 i_closeEl].
  cbn [targetEl disposable mask _scrollEvent] in *. subst i_target.
  destruct w as [el ob ev nr tm cl ae gt]. cbn [elems objs next_ref] in *.
  unfold alert, preset_options, set_event.
  destruct args as [q|tx [f|] g]; cbn [alert_mask alert_ok].
  all: repeat rstep.
  all: (eapply returns_mono;
    [ eapply (createDOM_bindEvents host _ self _ t te);
      [ cbn [objs]; first [apply lookup_insert_eq | exact Hi] | reflexivity | exact Hte
      | exact Hdoc | exact Hfresh ]
    | ]).
  all: intros [] w1 H1; apply returns_bind.
  all: (eapply returns_mono; [exact H1|]).
  all: intros [] w2 (Hb & Hobjs & (Hev & _) & (_ & _ & _ & _ & Hons & Htop) & _).
  all: cbn [next_ref objs eventsList] in *.
  all: apply of_el_Some in Hons as (te2 & Hte2 & Hons).
  all: apply of_el_Some in Htop as (te2' & Hte2' & Htop).
  all: assert (te2' = te2) by congruence; subst te2'.
  all: apply returns_bind.
  all: (eapply returns_mono;
    [ eapply (open_returns host w2 self t _ _ _ _ _ te2 Hb);
      [ rewrite Hobjs; apply lookup_insert_eq | exact Hte2 ]
    | ]).
  all: intros r w3 (-> & Hb3 & (Hc3 & Hs3 & Hd3 & Hm3 & _) & (Ho3 & Ht3) & (Hev3 & _) & _).
  all: apply returns_ret.
  all: cbn [mask disposable _scrollEvent with_closeEl with_maskEl with_innerEl
            with_containerEl with_popupEl] in *.
  all: rewrite Hons, Htop in *.
  all: split; [reflexivity|]. all: cbv zeta.
  all: split; [exact Hb3|].
  all: split; [by repeat split|].
  all: split; [by split|].
  all: unfold get_event; rewrite Hev3, Hev; cbn [eventsList];
       rewrite ?lookup_insert_eq; reflexivity.
Qed.

(** X20. The life of an alert.  On a new instance (disposable, never opened)
    whose target is an element of the document, [alert] returns the instance
    with its subtree built and open, the target's scroll handler replaced by
    the lock handler when there is a mask.  A click on an element with the
    class [popup-ok] (and not [popup-close]) then closes and destroys the
    popup: the wrapper leaves the document, the handles are cleared, the
    target has the scroll handler it had before [alert], and the
    [okCallback] in the callback map is called once, without argument. *)
Theorem alert_then_ok host w self t te args :
  fresh_store w ->
  of_obj targetEl w self = Some (Val t) ->
  of_obj disposable w self = Some (Val true) ->
  of_obj _scrollEvent w self = Some Undefined ->
  elems w !! t = Some te -> is_Some (elems w !! documentElement) ->
  exists w1,
    alert host self args w = Done self w1 /\
    let p : ref := next_ref w in
    let c : ref := S p in let n : ref := S c in let m : ref := S n in
    built w1 self t p c n m = true /\
    of_obj isClosed w1 self = Some (Val false) /\
    (forall mk, of_obj mask w1 self = Some mk -> truthy mk = true ->
     of_el onscroll w1 t = Some (HLock self (scrollTop te))) /\
    forall src s,
      elems w1 !! src = Some s ->
      hasClass s "popup-close" = false -> hasClass s "popup-ok" = true ->
      exists w2,
        _onContainer self src w1 = Done tt w2 /\
        calls w2 = (calls w1 ++ called (get_event w1 "okCallback"))%list /\
        of_el onscroll w2 t = Some (onscroll te) /\
        of_el parentNode w2 p = Some None /\
        of_obj targetEl w2 self = Some Null /\ of_obj popupEl w2 self = Some Null.
Proof.
  intros Hfresh (i & Hi & Ht)%of_obj_Some (i' & Hi' & Hd)%of_obj_Some
    (i'' & Hi'' & Hs)%of_obj_Some Hte Hdoc.
  assert (i' = i) by congruence. assert (i'' = i) by congruence. subst i' i''.
  pose proof (alert_returns host w self i t te args Hfresh Hi Ht Hte Hdoc) as H.
  apply returns_Done in H
    as (r & w1 & E & -> & Hb & (Hc1 & Hd1 & Hm1 & Hs1) & (Ho1 & Ht1) & _).
  rewrite Hd, Hs in *.
  exists w1. split; [exact E|]. cbv zeta.
  split; [exact Hb|]. split; [exact Hc1|]. split.
  { intros mk Hmk Htr. rewrite Hm1 in Hmk. injection Hmk as <-.
    by rewrite Htr in Ho1. }
  intros src s Hsrc Hclose Hok.
  apply of_obj_Some in Hd1 as (i1 & Hi1 & Hd1).
  apply of_obj_Some in Hm1 as (i1' & Hi1' & Hm1).
  apply of_obj_Some in Hs1 as (i1'' & Hi1'' & Hs1).
  assert (i1' = i1) by congruence. assert (i1'' = i1) by congruence. subst i1' i1''.
  apply of_el_Some in Ho1 as (te1 & Hte1 & Ho1).
  destruct (built_elim _ _ _ _ _ _ _ Hb)
    as (_ & _ & _ & pe & _ & _ & _ & _ & (_ & _ & Hpe & _) & _).
  pose proof (close_returns 0 w1 self t _ _ _ _ i1 te1 pe Hb Hi1 Hte1 Hpe) as H.
  apply returns_Done in H as (r & w2 & E2 & (_ & _ & Ho2 & _) & Hrest).
  pose proof (close_effects 0 w1 self t _ _ _ _ Hb) as H'.
  apply returns_Done in H' as (r' & w2' & E2' & _ & _ & Hcalls & Hev).
  assert (w2' = w2) by congruence. subst w2'.
  rewrite Hd1 in Hrest. cbn [truthy] in Hrest.
  destruct Hrest as (_ & (Htn & Hpn & _) & _ & (_ & Hpar & _) & _).
  destruct (call_event_run "okCallback" w2) as (w3 & E3 & Hc3 & He3 & Hob3 & _).
  exists w3. split.
  { unfold _onContainer, mbind, M_bind, getEl. rewrite Hsrc, Hclose, Hok.
    fold (close self w1). unfold close. rewrite E2. exact E3. }
  split.
  { rewrite Hc3, Hcalls. f_equal. f_equal. by apply get_event_ext. }
  unfold of_el, of_obj in *. rewrite He3, Hob3.
  split; [|by repeat split].
  rewrite Ho2, Hm1, Hs1.
  destruct (truthy (alert_mask args (mask i))); [reflexivity|exact (f_equal Some Ho1)].
Qed.

Lemma alert_then_ok_witness :
  exists w1,
    alert (Demo.browser 100 50) 3 (ByObject (Demo.params None))
      (final (Popup (Demo.browser 100 50) None Demo.page)) = Done 3%nat w1 /\
    built w1 3 1 4 5 6 7 = true /\
    of_obj isClosed w1 3 = Some (Val false).
Proof.
  pose proof (alert_then_ok (Demo.browser 100 50)
                (final (Popup (Demo.browser 100 50) None Demo.page)) 3 1
                Demo.body_el (ByObject (Demo.params None))) as H.
  specialize (H ltac:(apply fresh_store_check; vm_compute; reflexivity)
                ltac:(vm_compute; reflexivity) ltac:(vm_compute; reflexivity)
                ltac:(vm_compute; reflexivity) ltac:(vm_compute; reflexivity)
                ltac:(vm_compute; eauto)).
  destruct H as (w1 & E & Hb & Hc & _).
  exists w1. split; [exact E|]. split; [exact Hb|exact Hc].
Defined.

(** *** The ok handler of [prompt] *)



